(** * Subtitle pipeline: a shallow embedding of the stage functions

    Embeds [translator.py] ([Translator]), [subtitle_generator.py]
    ([SubtitleGenerator]) and [audio_transcriber.py] ([AudioTranscriber])
    and states the stage contracts over the embedding.

    Conventions.
    - A Python [str] is the list of its code points ([pystr]).
    - A Python [float] is the rational it denotes; float arithmetic is
      the exact operation followed by [fl], round-to-nearest-even on a
      53 bit significand.
    - A segment is a [dict] with string keys: [gmap string value].
    - Callbacks, the translation engine, the file and the transcription
      models are observed through a trace of [event]s. *)

From Stdlib Require Import ZArith QArith Qround Qpower Qabs Lqa Lia.
From Stdlib Require Import String Ascii List DecimalString.
From stdpp Require Import gmap strings list.

Local Open Scope Z_scope.

(** ** Python strings *)

Abbreviation pystr := (list N).

(** Code points of a UTF-8 byte sequence (source literals are UTF-8). *)
Fixpoint utf8_decode (bs : list N) : pystr :=
  match bs with
  | [] => []
  | b :: r =>
      if (b <? 128)%N then b :: utf8_decode r
      else if (b <? 224)%N then
        match r with
        | c1 :: r' => ((b - 192) * 64 + (c1 - 128))%N :: utf8_decode r'
        | _ => []
        end
      else if (b <? 240)%N then
        match r with
        | c1 :: c2 :: r' =>
            ((b - 224) * 4096 + (c1 - 128) * 64 + (c2 - 128))%N :: utf8_decode r'
        | _ => []
        end
      else
        match r with
        | c1 :: c2 :: c3 :: r' =>
            ((b - 240) * 262144 + (c1 - 128) * 4096 + (c2 - 128) * 64 + (c3 - 128))%N
              :: utf8_decode r'
        | _ => []
        end
  end.

Definition lit (s : string) : pystr :=
  utf8_decode (List.map N_of_ascii (list_ascii_of_string s)).

(** [str.isspace] on one code point: the table of [_PyUnicode_IsWhitespace]. *)
Definition is_space (c : N) : bool :=
  ((9 <=? c) && (c <=? 13) || (28 <=? c) && (c <=? 32)
   || (c =? 133) || (c =? 160) || (c =? 5760)
   || (8192 <=? c) && (c <=? 8202)
   || (c =? 8232) || (c =? 8233) || (c =? 8239) || (c =? 8287)
   || (c =? 12288))%N.

Fixpoint lstrip (s : pystr) : pystr :=
  match s with
  | c :: r => if is_space c then lstrip r else s
  | [] => []
  end.

Definition rstrip (s : pystr) : pystr := rev (lstrip (rev s)).

(** [s.strip()] *)
Definition strip (s : pystr) : pystr := rstrip (lstrip s).

(** Truth value of a [str]: non-empty. *)
Definition truthy (s : pystr) : bool :=
  match s with [] => false | _ => true end.

(** [sep.join(parts)] *)
Fixpoint join (sep : pystr) (parts : list pystr) : pystr :=
  match parts with
  | [] => []
  | [p] => p
  | p :: ps => p ++ sep ++ join sep ps
  end.

(** ** Integers as decimal text *)

Fixpoint uint_digits (u : Decimal.uint) : pystr :=
  match u with
  | Decimal.Nil => []
  | Decimal.D0 r => 48%N :: uint_digits r
  | Decimal.D1 r => 49%N :: uint_digits r
  | Decimal.D2 r => 50%N :: uint_digits r
  | Decimal.D3 r => 51%N :: uint_digits r
  | Decimal.D4 r => 52%N :: uint_digits r
  | Decimal.D5 r => 53%N :: uint_digits r
  | Decimal.D6 r => 54%N :: uint_digits r
  | Decimal.D7 r => 55%N :: uint_digits r
  | Decimal.D8 r => 56%N :: uint_digits r
  | Decimal.D9 r => 57%N :: uint_digits r
  end.

Definition nat_digits (n : N) : pystr := uint_digits (N.to_uint n).

(** [format(n, "0{w}d")]: sign-aware zero padding to width [w]. *)
Definition format_0d (w : nat) (n : Z) : pystr :=
  let ds := nat_digits (Z.abs_N n) in
  let sign := if n <? 0 then [45%N] else [] in
  sign ++ repeat 48%N (w - length sign - length ds) ++ ds.

(** [str(n)] for an [int]. *)
Definition str_int (n : Z) : pystr := format_0d 0 n.

(** ** Floats *)

(** [int(x)] on a float: truncation towards zero. *)
Definition Qtrunc (x : Q) : Z := Z.quot (Qnum x) (Zpos (Qden x)).

(** Round half to even. *)
Definition rne (x : Q) : Z :=
  let f := Qfloor x in
  match (x - inject_Z f ?= 1 # 2)%Q with
  | Lt => f
  | Gt => f + 1
  | Eq => if Z.even f then f else f + 1
  end.

(** [floor (log2 x)] for [0 < x]. *)
Definition ilog2 (x : Q) : Z :=
  let d := Z.log2 (Qnum x) - Z.log2 (Zpos (Qden x)) in
  if Qle_bool (2 ^ d) x then d else d - 1.

(** Rounding of a real result to the nearest double, ties to even:
    the significand keeps 53 bits.  The exponent range is not bounded
    (no overflow to infinity, no subnormals): the quantities of this
    program are far inside the normal range. *)
Definition fl (x : Q) : Q :=
  let x := Qred x in
  match Qnum x with
  | Z0 => 0%Q
  | _ =>
      let e := ilog2 (Qabs x) - 52 in
      Qred (inject_Z (rne (x / 2 ^ e)) * 2 ^ e)
  end.

Definition fdiv (x y : Q) : Q := fl (x / y).
Definition fmul (x y : Q) : Q := fl (x * y).

(** ** Exceptions and results *)

Inductive exn_class :=
| ValueError | RuntimeError | KeyError | TypeError | AttributeError
| ZeroDivisionError | OverflowError | FileNotFoundError
| ImportError | ModuleNotFoundError | CalledProcessError | OSError
| UnicodeEncodeError.

(** An exception: its class and, for [raise C(...) from e], the cause [e].
    Messages are not modelled. *)
Inductive exn :=
| Exn (cls : exn_class)
| ExnFrom (cls : exn_class) (cause : exn).

Definition exn_cls (e : exn) : exn_class :=
  match e with Exn c | ExnFrom c _ => c end.

(** The innermost exception of a [raise ... from ...] chain. *)
Fixpoint root_cause (e : exn) : exn :=
  match e with
  | ExnFrom _ e' => root_cause e'
  | Exn _ => e
  end.

Inductive result (A : Type) :=
| Ok (a : A)
| Raise (e : exn).
Arguments Ok {A} a.
Arguments Raise {A} e.

(** ** [datetime.timedelta] *)

Record timedelta := { td_days : Z; td_seconds : Z; td_microseconds : Z }.

(** [timedelta(seconds=s)] for a float [s] ([delta_new] and [accum] of
    CPython): the whole seconds are converted exactly, the fraction is
    multiplied by 1e6 in float arithmetic, and the sum is rounded half to
    even to a whole number of microseconds, then normalised. *)
Definition timedelta_us (s : Q) : Z :=
  let ip := Qtrunc s in
  let frac := (s - inject_Z ip)%Q in
  rne (inject_Z (ip * 1000000) + fmul 1000000 frac)%Q.

Definition timedelta_of_seconds (s : Q) : result timedelta :=
  let us := timedelta_us s in
  let d := us / 86400000000 in
  if (d <? -999999999) || (999999999 <? d) then Raise (Exn OverflowError)
  else Ok {| td_days := d;
             td_seconds := (us / 1000000) mod 86400;
             td_microseconds := us mod 1000000 |}.

(** ** Values, segments and the observable world *)

Inductive value :=
| VFloat (x : Q)
| VStr (s : pystr).

(** An element of a segment list: a [dict] with string keys, or
    something that is not a [dict]. *)
Inductive pyobj :=
| ODict (d : gmap string value)
| OVal (v : value).

(** [str(v)] as used by f-strings.  The text of a float ([float.__repr__])
    is left to a parameter. *)
Definition str_value (float_repr : Q -> pystr) (v : value) : pystr :=
  match v with
  | VStr s => s
  | VFloat x => float_repr x
  end.

Inductive event :=
| EvProgress (p : Z)
| EvRun (cmd : list pystr)
| EvOpen (path : pystr)
| EvWrite (data : pystr)
| EvWhisperLoad (name device : pystr)
| EvWhisperTranscribe (audio_path : pystr) (fp16 : bool)
| EvFasterLoad (model_path device compute_type : pystr)
| EvFasterTranscribe (audio_path : pystr) (beam_size : Z).

(** List objects live in a heap and are named by their index: a list that
    is built with [[]] and [append] is a new object, distinct from every
    list the caller holds. *)
Abbreviation loc := nat.

Record state := { trace : list event; heap : list (list pyobj) }.

Definition init_state : state := {| trace := []; heap := [] |}.

(** ** A state and exception monad *)

Definition M (A : Type) : Type := state -> state * result A.

Definition ret {A} (a : A) : M A := fun st => (st, Ok a).

Definition bind {A B} (m : M A) (k : A -> M B) : M B :=
  fun st =>
    match m st with
    | (st', Ok a) => k a st'
    | (st', Raise e) => (st', Raise e)
    end.

Definition raise {A} (e : exn) : M A := fun st => (st, Raise e).

(** [try: m except Exception as e: h e] *)
Definition try_except {A} (m : M A) (h : exn -> M A) : M A :=
  fun st =>
    match m st with
    | (st', Raise e) => h e st'
    | r => r
    end.

Declare Scope py_scope.
Delimit Scope py_scope with py.
Notation "x <- m ;; k" := (bind m (fun x => k))
  (at level 100, m at next level, right associativity) : py_scope.
Notation "m ;; k" := (bind m (fun _ => k))
  (at level 100, right associativity) : py_scope.
Local Open Scope py_scope.

Definition emit (ev : event) : M unit :=
  fun st => ({| trace := trace st ++ [ev]; heap := heap st |}, Ok tt).

(** [progress_callback(p)] when a callback was passed. *)
Definition report (progress_callback : bool) (p : Z) : M unit :=
  if progress_callback then emit (EvProgress p) else ret tt.

(** [[]]: a new list object. *)
Definition list_new : M loc :=
  fun st => ({| trace := trace st; heap := heap st ++ [[]] |}, Ok (length (heap st))).

(** The current elements of a list object. *)
Definition list_get (l : loc) : M (list pyobj) :=
  fun st => (st, Ok (default [] (heap st !! l))).

(** [l.append(x)] *)
Definition list_append (l : loc) (x : pyobj) : M unit :=
  fun st =>
    ({| trace := trace st;
        heap := <[l := default [] (heap st !! l) ++ [x]]> (heap st) |}, Ok tt).

(** [d[k]] *)
Definition subscript (d : gmap string value) (k : string) : M value :=
  match d !! k with
  | Some v => ret v
  | None => raise (Exn KeyError)
  end.

(** [int(k / total * 100)] for ints [k] and [total]: true division and
    the product are float operations, [int] truncates. *)
Definition percent (k total : Z) : Z :=
  Qtrunc (fmul (fdiv (inject_Z k) (inject_Z total)) 100).

(** ** translator.py *)

Record Translator := { use_local_model : bool; model_name : option pystr }.

(** [self.use_local_model and self.model_name] as a condition. *)
Definition name_given (self : Translator) : bool :=
  match model_name self with
  | Some n => truthy n
  | None => false
  end.

Definition local_model_on (self : Translator) : bool :=
  use_local_model self && name_given self.

(** The adjacent literals [r'...'] ['...'] of [allowed_punct]. *)
Definition allowed_punct : pystr :=
  lit "，。！？：；、" ++ [34%N; 34%N] ++ lit "……—·《》【】".

Definition in_allowed_punct (c : N) : bool :=
  existsb (N.eqb c) allowed_punct.

(** The character class [[\u4e00-\u9fa5a-zA-Z0-9<allowed_punct>]]. *)
Definition in_class (c : N) : bool :=
  ((19968 <=? c) && (c <=? 40869)
   || (97 <=? c) && (c <=? 122)
   || (65 <=? c) && (c <=? 90)
   || (48 <=? c) && (c <=? 57))%N
  || in_allowed_punct c.

(** [re.findall(r'[class]+', s)]: the maximal runs of class characters,
    left to right.  [run] is the run being read, in reverse. *)
Fixpoint findall_runs (run : pystr) (s : pystr) : list pystr :=
  match s with
  | [] => match run with [] => [] | _ => [rev run] end
  | c :: r =>
      if in_class c then findall_runs (c :: run) r
      else match run with
           | [] => findall_runs [] r
           | _ => rev run :: findall_runs [] r
           end
  end.

Definition findall (s : pystr) : list pystr := findall_runs [] s.

(** [s[-1] in allowed_punct] for a non-empty [s]. *)
Definition ends_in_punct (s : pystr) : bool :=
  match last s with
  | Some c => in_allowed_punct c
  | None => false
  end.

(** [if translated_text and translated_text[-1] in allowed_punct:
    translated_text = translated_text[:-1]] *)
Definition drop_final_punct (translated_text : pystr) : pystr :=
  if truthy translated_text && ends_in_punct translated_text
  then removelast translated_text
  else translated_text.

(** The response clean-up of [translate_with_ollama], from
    [result.stdout.strip()] to the returned text. *)
Definition sanitize (stdout : pystr) : pystr :=
  let translated_text := strip stdout in
  let filtered := findall translated_text in
  let translated_text := join [] filtered in
  let translated_text := drop_final_punct translated_text in
  strip translated_text.

Definition prompt_rules : pystr := lit "你是一个专业的字幕翻译助手，负责将给出的视频内容翻译成中文，并保持原文的语气和风格。

翻译规则：
1. 输出格式：仅输出翻译结果，不要有任何前缀、后缀或额外说明
2. 语言要求：只使用中文，禁止使用任何其他语言（包括英文、数字等）
3. 标点符号：使用中文标点，句中标点保留，句末标点可省略
4. 翻译风格：
   - 保持原文的语气和风格
   - 使用自然、流畅的中文表达
   - 保持翻译的一致性
   - 适合字幕阅读的简洁表达

".

Definition prompt_examples : pystr := lit "

下面是几个示例，请参考：
原文：I want to test this program.
翻译：我想测试这个程序

原文：The weather is nice today, isn't it?
翻译：今天天气真不错

原文：Please wait a moment.
翻译：请稍等


现在请翻译以下文本：
".

Definition context_intro : pystr := lit "以下是一段对话的全部内容，请先阅读并理解整体上下文：
".

Definition separator : pystr := lit "
---
".

Section Translation.

(** The translation engine: what [subprocess.run(cmd, capture_output=True,
    text=True, check=True)] gives for [cmd], as its [stdout] or as the
    exception raised, possibly depending on everything observed before. *)
Variable ollama : list event -> list pystr -> result pystr.

Definition subprocess_run (cmd : list pystr) : M pystr :=
  fun st =>
    ({| trace := trace st ++ [EvRun cmd]; heap := heap st |},
     ollama (trace st) cmd).

Definition translate_with_ollama (self : Translator) (context : pystr)
    (text : value) : M pystr :=
  text <- match text with
          | VStr s =>
              if negb (truthy s) || negb (truthy (strip s))
              then raise (Exn ValueError) else ret s
          | VFloat x =>
              if Qeq_bool x 0 then raise (Exn ValueError)
              else raise (Exn AttributeError)
          end ;;
  match model_name self with
  | Some name =>
      if negb (truthy name) then raise (Exn RuntimeError) else
      let prompt := prompt_rules ++ context ++ prompt_examples ++ text in
      let cmd := [lit "ollama"; lit "run"; name; prompt] in
      try_except
        (stdout <- subprocess_run cmd ;;
         if negb (truthy stdout) || negb (truthy (strip stdout))
         then raise (Exn RuntimeError)
         else ret (sanitize stdout))
        (fun e =>
           match exn_cls e with
           | CalledProcessError => raise e
           | _ => raise (ExnFrom RuntimeError e)
           end)
  | None => raise (Exn RuntimeError)
  end.

(** [segment["text"] for segment in segments], consumed by [join]. *)
Fixpoint texts_of (segments : list pyobj) : M (list value) :=
  match segments with
  | [] => ret []
  | ODict d :: rest =>
      t <- subscript d "text" ;;
      ts <- texts_of rest ;;
      ret (t :: ts)
  | OVal _ :: _ => raise (Exn TypeError)
  end.

(** [join] accepts [str] items only. *)
Fixpoint all_str (vs : list value) : M (list pystr) :=
  match vs with
  | [] => ret []
  | VStr s :: rest => ss <- all_str rest ;; ret (s :: ss)
  | VFloat _ :: _ => raise (Exn TypeError)
  end.

(** The [dict] appended for one segment:
    [{"start": ..., "end": ..., "original": ..., "translated": ...}]. *)
Definition translated_segment (start end_ original translated : value)
    : gmap string value :=
  <["start" := start]>
    (<["end" := end_]>
       (<["original" := original]>
          (<["translated" := translated]> ∅))).

(** One round of the [for] loop of [translate_segments]. *)
Definition translate_one (self : Translator) (total : nat)
    (context_prompt : pystr) (translated_segments : loc)
    (progress_callback : bool) (i : nat) (segment : pyobj) : M unit :=
  try_except
    (match segment with
     | ODict d =>
         match d !! "text" with
         | Some text =>
             translated_text <-
               (if local_model_on self
                then t <- translate_with_ollama self context_prompt text ;;
                     ret (VStr t)
                else ret text) ;;
             start <- subscript d "start" ;;
             end_ <- subscript d "end" ;;
             list_append translated_segments
               (ODict (translated_segment start end_ text translated_text)) ;;
             report progress_callback
               (percent (Z.of_nat i + 1) (Z.of_nat total))
         | None => raise (Exn ValueError)
         end
     | OVal _ => raise (Exn ValueError)
     end)
    (fun e => raise (ExnFrom RuntimeError e)).

Fixpoint translate_loop (self : Translator) (total : nat)
    (context_prompt : pystr) (translated_segments : loc)
    (progress_callback : bool) (i : nat) (segments : list pyobj) : M unit :=
  match segments with
  | [] => ret tt
  | segment :: rest =>
      translate_one self total context_prompt translated_segments
        progress_callback i segment ;;
      translate_loop self total context_prompt translated_segments
        progress_callback (S i) rest
  end.

(** [Translator.translate_segments(segments, progress_callback)]; the
    argument and the result are list objects.  The loop never writes to
    [segments], so its elements are read once. *)
Definition translate_segments (self : Translator) (segments : loc)
    (progress_callback : bool) : M loc :=
  segs <- list_get segments ;;
  match segs with
  | [] => raise (Exn ValueError)
  | _ =>
      try_except
        (let total := length segs in
         translated_segments <- list_new ;;
         context_prompt <-
           (if local_model_on self
            then ts <- texts_of segs ;;
                 ss <- all_str ts ;;
                 ret (context_intro ++ join separator ss)
            else ret []) ;;
         translate_loop self total context_prompt translated_segments
           progress_callback 0 segs ;;
         ret translated_segments)
        (fun e => raise (ExnFrom RuntimeError e))
  end.

End Translation.

(** ** subtitle_generator.py *)

(** [p.rfind(c)]: the last index of [c] in [p], or [-1]. *)
Fixpoint rfind_from (c : N) (p : pystr) (i found : Z) : Z :=
  match p with
  | [] => found
  | x :: r => rfind_from c r (i + 1) (if (x =? c)%N then i else found)
  end.

Definition rfind (c : N) (p : pystr) : Z := rfind_from c p 0 (-1).

(** The [while] loop of [genericpath._splitext]: is some character of the
    file name before the last dot not a dot? *)
Fixpoint has_non_dot (s : pystr) : bool :=
  match s with
  | [] => false
  | c :: r => if negb (c =? 46)%N then true else has_non_dot r
  end.

(** [os.path] comes in two flavours: [posixpath] separates with [/],
    [ntpath] with a backslash and, alternatively, [/]. *)
Inductive os_flavour := Posix | NT.

(** [os.path.splitext(p)] *)
Definition splitext (os : os_flavour) (p : pystr) : pystr * pystr :=
  let sepIndex :=
    match os with
    | Posix => rfind 47 p
    | NT => Z.max (rfind 92 p) (rfind 47 p)
    end in
  let dotIndex := rfind 46 p in
  if (sepIndex <? dotIndex)
     && has_non_dot (take (Z.to_nat (dotIndex - (sepIndex + 1)))
                          (drop (Z.to_nat (sepIndex + 1)) p))
  then (take (Z.to_nat dotIndex) p, drop (Z.to_nat dotIndex) p)
  else (p, []).

Record SubtitleGenerator := {
  segments : list pyobj;
  output_path : pystr;
  use_translation : bool
}.

(** [SubtitleGenerator._format_time(seconds)] *)
Definition _format_time (seconds : value) : M pystr :=
  match seconds with
  | VStr _ => raise (Exn TypeError)
  | VFloat s =>
      match timedelta_of_seconds s with
      | Raise e => raise e
      | Ok td =>
          let hours := td_seconds td / 3600 in
          let minutes := (td_seconds td mod 3600) / 60 in
          let seconds := td_seconds td mod 60 in
          let milliseconds :=
            Qtrunc (fdiv (inject_Z (td_microseconds td)) 1000) in
          ret (format_0d 2 hours ++ lit ":" ++ format_0d 2 minutes ++ lit ":"
               ++ format_0d 2 seconds ++ lit "," ++ format_0d 3 milliseconds)
      end
  end.

Section Writing.

(** [float.__repr__], used when a text field holds a float. *)
Variable float_repr : Q -> pystr.

(** [open(path, "w", encoding="utf-8")]: succeeds or raises. *)
Variable fs_open : pystr -> result unit.

Definition open_w (path : pystr) : M unit :=
  fun st =>
    ({| trace := trace st ++ [EvOpen path]; heap := heap st |}, fs_open path).

(** A surrogate code point: a [str] that holds one cannot be encoded as
    UTF-8. *)
Definition is_surrogate (c : N) : bool :=
  ((55296 <=? c) && (c <=? 57343))%N.

(** What handing encoded text to the open file gives, possibly depending
    on everything observed before: success or the exception raised (an
    [OSError] for a full disk, for instance). *)
Variable fs_write : list event -> pystr -> result unit.

(** [f.write(data)] on the file opened with [encoding="utf-8"]: the text
    is encoded first, which raises [UnicodeEncodeError] on a lone
    surrogate, and then handed to the file. *)
Definition write (data : pystr) : M unit :=
  fun st =>
    if existsb is_surrogate data then (st, Raise (Exn UnicodeEncodeError))
    else
      match fs_write (trace st) data with
      | Ok _ =>
          ({| trace := trace st ++ [EvWrite data]; heap := heap st |}, Ok tt)
      | Raise e => (st, Raise e)
      end.

(** [segment[k]] for an element of the list. *)
Definition item (segment : pyobj) (k : string) : M value :=
  match segment with
  | ODict d => subscript d k
  | OVal _ => raise (Exn TypeError)
  end.

(** [k in segment] once [segment] is known to be a [dict]. *)
Definition has_key (segment : pyobj) (k : string) : bool :=
  match segment with
  | ODict d => bool_decide (is_Some (d !! k))
  | OVal _ => false
  end.

(** The text written for one segment (the [if]/[elif]/[else] of
    [generate_srt]). *)
Definition write_text (self : SubtitleGenerator) (segment : pyobj) : M unit :=
  if use_translation self && has_key segment "translated" then
    v <- item segment "translated" ;;
    write (str_value float_repr v ++ lit "
")
  else if has_key segment "original" then
    v <- item segment "original" ;;
    write (str_value float_repr v ++ lit "
")
  else
    v <- item segment "text" ;;
    write (str_value float_repr v ++ lit "
").

(** One round of the [for] loop of [generate_srt]. *)
Definition write_block (self : SubtitleGenerator) (progress_callback : bool)
    (i : nat) (segment : pyobj) : M unit :=
  write (str_int (Z.of_nat i + 1) ++ lit "
") ;;
  s <- item segment "start" ;;
  start <- _format_time s ;;
  e <- item segment "end" ;;
  end_ <- _format_time e ;;
  write (start ++ lit " --> " ++ end_ ++ lit "
") ;;
  write_text self segment ;;
  write (lit "
") ;;
  report progress_callback
    (percent (Z.of_nat i + 1) (Z.of_nat (length (segments self)))).

Fixpoint write_blocks (self : SubtitleGenerator) (progress_callback : bool)
    (i : nat) (segs : list pyobj) : M unit :=
  match segs with
  | [] => ret tt
  | segment :: rest =>
      write_block self progress_callback i segment ;;
      write_blocks self progress_callback (S i) rest
  end.

(** [SubtitleGenerator.generate_srt(progress_callback)] *)
Definition generate_srt (os : os_flavour) (self : SubtitleGenerator)
    (progress_callback : bool) : M pystr :=
  let srt_path := (splitext os (output_path self)).1 ++ lit ".srt" in
  open_w srt_path ;;
  write_blocks self progress_callback 0 (segments self) ;;
  ret srt_path.

End Writing.

(** What a run wrote: the data of its [EvWrite] events, in order. *)
Definition written (tr : list event) : pystr :=
  concat (omap (fun ev => match ev with EvWrite d => Some d | _ => None end) tr).

(** The progress values a run delivered, in order. *)
Definition progress_values (tr : list event) : list Z :=
  omap (fun ev => match ev with EvProgress p => Some p | _ => None end) tr.

(** The engine invocations of a run, in order. *)
Definition engine_calls (tr : list event) : list (list pystr) :=
  omap (fun ev => match ev with EvRun c => Some c | _ => None end) tr.

(** ** audio_transcriber.py *)

Record AudioTranscriber := {
  use_faster_whisper : bool;
  model_path : option pystr;
  use_gpu : bool;
  compute_type : pystr;
  device : pystr
}.

(** [AudioTranscriber.__init__] *)
Definition AudioTranscriber_init (cuda_available : bool)
    (use_faster_whisper : bool) (model_path : option pystr) (use_gpu : bool)
    (compute_type : pystr) : AudioTranscriber :=
  {| use_faster_whisper := use_faster_whisper;
     model_path := model_path;
     use_gpu := use_gpu;
     compute_type := compute_type;
     device := if cuda_available && use_gpu then lit "cuda" else lit "cpu" |}.

(** A segment as an engine hands it out. *)
Record raw_segment := { seg_start : Q; seg_end : Q; seg_text : pystr }.

(** The segment [dict] built by both variants:
    [{"start": ..., "end": ..., "text": ....strip()}]. *)
Definition segment_dict (segment : raw_segment) : gmap string value :=
  <["start" := VFloat (seg_start segment)]>
    (<["end" := VFloat (seg_end segment)]>
       (<["text" := VStr (strip (seg_text segment))]> ∅)).

Definition store_segment (segment : raw_segment) : pyobj :=
  ODict (segment_dict segment).

(** The lazy segment sequence of faster-whisper: the segments it yields
    and, possibly, the exception that ends the iteration. *)
Record lazy_segments := {
  yielded : list raw_segment;
  failure : option exn
}.

Section Transcription.

(** [os.path.exists] *)
Variable path_exists : pystr -> bool.
(** Does [import whisper] succeed? *)
Variable whisper_importable : bool.
(** [whisper.load_model(name, device=device)] *)
Variable whisper_load_model : pystr -> pystr -> result unit.
(** [model.transcribe(audio_path, fp16=fp16)["segments"]] *)
Variable whisper_transcribe : pystr -> bool -> result (list raw_segment).
(** [WhisperModel(model_path, device=device, compute_type=compute_type)] *)
Variable faster_load : option pystr -> pystr -> pystr -> result unit.
(** [model.transcribe(audio_path, beam_size=5)]: the segments and
    [info.duration]. *)
Variable faster_transcribe : pystr -> result (lazy_segments * Q).

Definition call {A} (ev : event) (r : result A) : M A :=
  fun st => ({| trace := trace st ++ [ev]; heap := heap st |}, r).

Fixpoint whisper_loop (progress_callback : bool) (total_segments : nat)
    (i : nat) (raw : list raw_segment) (segments : list pyobj)
    : M (list pyobj) :=
  match raw with
  | [] => ret segments
  | segment :: rest =>
      let segments := segments ++ [store_segment segment] in
      report progress_callback
        (percent (Z.of_nat i + 1) (Z.of_nat total_segments)) ;;
      whisper_loop progress_callback total_segments (S i) rest segments
  end.

(** [AudioTranscriber.transcribe_with_whisper] *)
Definition transcribe_with_whisper (self : AudioTranscriber)
    (audio_path : pystr) (progress_callback : bool) : M (list pyobj) :=
  if negb (path_exists audio_path) then raise (Exn FileNotFoundError) else
  try_except
    ((if whisper_importable then ret tt
      else raise (Exn ModuleNotFoundError)) ;;
     call (EvWhisperLoad (lit "base") (device self))
          (whisper_load_model (lit "base") (device self)) ;;
     let use_fp16 :=
       bool_decide (device self = lit "cuda")
       && (bool_decide (compute_type self = lit "float16")
           || bool_decide (compute_type self = lit "int8")) in
     raw <- call (EvWhisperTranscribe audio_path use_fp16)
                 (whisper_transcribe audio_path use_fp16) ;;
     whisper_loop progress_callback (length raw) 0 raw [])
    (fun e => raise (ExnFrom RuntimeError e)).

(** [int(segment.end / total_duration * 100)] *)
Definition duration_percent (e total_duration : Q) : M Z :=
  if Qeq_bool total_duration 0 then raise (Exn ZeroDivisionError)
  else ret (Qtrunc (fmul (fdiv e total_duration) 100)).

Fixpoint faster_loop (progress_callback : bool) (total_duration : Q)
    (raw : list raw_segment) (failure : option exn) (result : list pyobj)
    : M (list pyobj) :=
  match raw with
  | [] =>
      match failure with
      | Some e => raise e
      | None => ret result
      end
  | segment :: rest =>
      let result := result ++ [store_segment segment] in
      (if progress_callback then
         progress <- duration_percent (seg_end segment) total_duration ;;
         emit (EvProgress progress)
       else ret tt) ;;
      faster_loop progress_callback total_duration rest failure result
  end.

(** [AudioTranscriber.transcribe_with_faster_whisper] *)
Definition transcribe_with_faster_whisper (self : AudioTranscriber)
    (audio_path : pystr) (progress_callback : bool) : M (list pyobj) :=
  if negb (path_exists audio_path) then raise (Exn FileNotFoundError) else
  try_except
    (call (EvFasterLoad (default [] (model_path self)) (device self)
             (compute_type self))
          (faster_load (model_path self) (device self) (compute_type self)) ;;
     r <- call (EvFasterTranscribe audio_path 5)
               (faster_transcribe audio_path) ;;
     let '(segments, total_duration) := r in
     faster_loop progress_callback total_duration (yielded segments)
       (failure segments) [])
    (fun e => raise (ExnFrom RuntimeError e)).

(** [self.use_faster_whisper and self.model_path] as a condition. *)
Definition path_given (self : AudioTranscriber) : bool :=
  match model_path self with
  | Some p => truthy p
  | None => false
  end.

(** [AudioTranscriber.transcribe] *)
Definition transcribe (self : AudioTranscriber) (audio_path : pystr)
    (progress_callback : bool) : M (list pyobj) :=
  if use_faster_whisper self && path_given self
  then transcribe_with_faster_whisper self audio_path progress_callback
  else transcribe_with_whisper self audio_path progress_callback.

End Transcription.

(** ** Observations on a run *)

(** The events a run added to the trace. *)
Definition new_events (st st' : state) : list event :=
  drop (length (trace st)) (trace st').

Definition non_decreasing (ps : list Z) : Prop :=
  forall i j p q,
    (i <= j)%nat -> ps !! i = Some p -> ps !! j = Some q -> p <= q.

(** The progress contract: every value in [0,100], non-decreasing, and the
    final value exactly 100. *)
Definition progress_contract (ps : list Z) : Prop :=
  Forall (fun p => 0 <= p <= 100) ps
  /\ non_decreasing ps
  /\ last ps = Some 100.

(** 100 is delivered by the last report only. *)
Definition hundred_only_last (ps : list Z) : Prop :=
  forall i, ps !! i = Some 100 -> S i = length ps.

(** The reports of a loop over [n] segments that counts them. *)
Definition count_progress (n : nat) : list Z :=
  (fun i => percent (Z.of_nat i + 1) (Z.of_nat n)) <$> seq 0 n.

(** The largest double below 1. *)
Definition pred_one : Q := 9007199254740991 # 9007199254740992.

(** ** Notions used by the statements *)

(** Only characters of the class. *)
Definition class_only (s : pystr) : Prop := Forall (fun c => in_class c = true) s.

(** A text that [translate_with_ollama] rejects. *)
Definition blank (s : pystr) : Prop := strip s = [].

(** What one round appends for a segment. *)
Definition translated_from (self : Translator) (segment new : pyobj) : Prop :=
  exists d text start end_ tr,
    segment = ODict d /\ d !! "text" = Some text
    /\ d !! "start" = Some start /\ d !! "end" = Some end_
    /\ new = ODict (translated_segment start end_ text tr)
    /\ (local_model_on self = false -> tr = text).

(** A segment as transcription produces it: a [dict] with [start], [end]
    and [text]. *)
Definition plain_segment (segment : pyobj) : Prop :=
  exists d, segment = ODict d
    /\ is_Some (d !! "text") /\ is_Some (d !! "start") /\ is_Some (d !! "end").

(** A [dict] whose [text] is a [str]. *)
Definition str_segment (segment : pyobj) : Prop :=
  exists d t, segment = ODict d /\ d !! "text" = Some (VStr t).

(** A plain segment whose [text] is a non-blank [str]. *)
Definition spoken_segment (segment : pyobj) : Prop :=
  exists d t, segment = ODict d
    /\ d !! "text" = Some (VStr t) /\ ~ blank t
    /\ is_Some (d !! "start") /\ is_Some (d !! "end").

(** The engine answers every request with a non-blank text. *)
Definition answers (ollama : list event -> list pystr -> result pystr) : Prop :=
  forall tr cmd, exists out, ollama tr cmd = Ok out /\ ~ blank out.

(** ** The translation contracts as the specification words them *)

(** A segment that kept [start], [end] and [text] and gained [original]
    and [translated], nothing else. *)
Definition kept_and_attached (d d' : gmap string value) : Prop :=
  d' !! "start" = d !! "start"
  /\ d' !! "end" = d !! "end"
  /\ d' !! "text" = d !! "text"
  /\ d' !! "original" = d !! "text"
  /\ dom d' = dom d ∪ {["original"; "translated"]}.

(** The store is updated in place: the result is the list that was passed
    in, and its segments kept their fields. *)
Definition in_place_contract (ollama : list event -> list pystr -> result pystr)
    (self : Translator) (segments : loc) (cb : bool) (st : state) : Prop :=
  forall st' r,
    translate_segments ollama self segments cb st = (st', Ok r) ->
    r = segments
    /\ exists segs out,
         heap st !! segments = Some segs
         /\ heap st' !! r = Some out
         /\ Forall2 (fun s o => exists d d',
                        s = ODict d /\ o = ODict d' /\ kept_and_attached d d')
                     segs out.

(** What the code does to one segment: a new [dict] with [start] and
    [end] copied, [original] set to the text, a [translated] field, and
    no [text]. *)
Definition rebuilt_from (segment new : pyobj) : Prop :=
  exists d d' text,
    segment = ODict d /\ new = ODict d'
    /\ d !! "text" = Some text
    /\ is_Some (d !! "start") /\ d' !! "start" = d !! "start"
    /\ is_Some (d !! "end") /\ d' !! "end" = d !! "end"
    /\ d' !! "original" = Some text
    /\ is_Some (d' !! "translated")
    /\ dom d' = {["start"; "end"; "original"; "translated"]}.

(** A blank text fails the store before the engine is used. *)
Definition fails_before_engine (ollama : list event -> list pystr -> result pystr)
    (self : Translator) (segments : loc) (cb : bool) (st : state) : Prop :=
  exists st' e,
    translate_segments ollama self segments cb st = (st', Raise e)
    /\ root_cause e = Exn ValueError
    /\ engine_calls (new_events st st') = [].

(** The run succeeds. *)
Definition translation_succeeds (ollama : list event -> list pystr -> result pystr)
    (self : Translator) (segments : loc) (cb : bool) (st : state) : Prop :=
  exists st' r, translate_segments ollama self segments cb st = (st', Ok r).

(** With the local model off, a segment is copied: [translated] and
    [original] are its text. *)
Definition copied_from (segment new : pyobj) : Prop :=
  exists d d',
    segment = ODict d /\ new = ODict d'
    /\ is_Some (d !! "text")
    /\ d' !! "translated" = d !! "text"
    /\ d' !! "original" = d !! "text".

(** Cleaning twice is cleaning once. *)
Definition sanitize_idempotent_at (s : pystr) : Prop :=
  sanitize (sanitize s) = sanitize s.

(** ** Sample inputs *)

Definition hello_raw : raw_segment :=
  {| seg_start := 0; seg_end := 5 # 2; seg_text := lit "Hello" |}.

Definition silence_raw : raw_segment :=
  {| seg_start := 5 # 2; seg_end := 5; seg_text := lit "  " |}.

Definition hello : pyobj := store_segment hello_raw.
Definition silence : pyobj := store_segment silence_raw.

(** A state whose only list object, at location 0, holds [segs]. *)
Definition store_of (segs : list pyobj) : state :=
  {| trace := []; heap := [segs] |}.

Definition translator_off : Translator :=
  {| use_local_model := false; model_name := Some (lit "gemma") |}.

Definition translator_on : Translator :=
  {| use_local_model := true; model_name := Some (lit "gemma") |}.

(** An engine that cannot be started, and one that always answers. *)
Definition no_engine : list event -> list pystr -> result pystr :=
  fun _ _ => Raise (Exn OSError).

Definition canned_engine : list event -> list pystr -> result pystr :=
  fun _ _ => Ok (lit "你好。").

(** ** The writer and transcriber contracts as the specification words them *)

(** The text-line selection policy: [translated] when translated output is
    requested and the segment has it, else [original] when the segment has
    it, else [text]. *)
Definition text_line_policy (use_translation : bool) (d : gmap string value)
    : option value :=
  match d !! "translated", d !! "original" with
  | Some translated, Some original =>
      if use_translation then Some translated else Some original
  | Some translated, None =>
      if use_translation then Some translated else d !! "text"
  | None, Some original => Some original
  | None, None => d !! "text"
  end.

(** The data of the [EvWrite] events, one entry for each [write]. *)
Definition writes (tr : list event) : list pystr :=
  omap (fun ev => match ev with EvWrite d => Some d | _ => None end) tr.

(** A successful run, with a callback, of a stage that counts its
    segments: the events the run added and the number of segments it went
    through. *)
Inductive counted_run : list event -> nat -> Prop :=
| whisper_run path_exists whisper_importable whisper_load_model
    whisper_transcribe self audio_path st st' segs :
    transcribe_with_whisper path_exists whisper_importable whisper_load_model
      whisper_transcribe self audio_path true st = (st', Ok segs) ->
    counted_run (new_events st st') (length segs)
| translation_run ollama self segments st st' r segs :
    translate_segments ollama self segments true st = (st', Ok r) ->
    heap st !! segments = Some segs ->
    counted_run (new_events st st') (length segs)
| writing_run float_repr fs_open fs_write os self st st' path :
    generate_srt float_repr fs_open fs_write os self true st = (st', Ok path) ->
    counted_run (new_events st st') (length (segments self)).

(** A successful run of variant B with a callback: the events the run
    added, the duration the engine reported and the segments it
    yielded. *)
Inductive timed_run : list event -> Q -> list raw_segment -> Prop :=
| faster_run path_exists faster_load faster_transcribe self audio_path st st'
    segs yield total_duration :
    transcribe_with_faster_whisper path_exists faster_load faster_transcribe
      self audio_path true st = (st', Ok segs) ->
    faster_transcribe audio_path = Ok (yield, total_duration) ->
    timed_run (new_events st st') total_duration (yielded yield).

(** The progress contract for the faster-whisper variant. *)
Definition faster_progress_contract
    (path_exists : pystr -> bool)
    (faster_load : option pystr -> pystr -> pystr -> result unit)
    (faster_transcribe : pystr -> result (lazy_segments * Q))
    (self : AudioTranscriber) (audio_path : pystr) (st : state) : Prop :=
  forall st' segs,
    transcribe_with_faster_whisper path_exists faster_load faster_transcribe
      self audio_path true st = (st', Ok segs) ->
    segs <> [] ->
    progress_contract (progress_values (new_events st st')).

(** The events of variant B's engine. *)
Definition faster_event (ev : event) : bool :=
  match ev with
  | EvFasterLoad _ _ _ | EvFasterTranscribe _ _ => true
  | _ => false
  end.

(** Sample worlds: every path exists; faster-whisper yields [hello_raw]
    for an audio of ten seconds. *)
Definition any_path : pystr -> bool := fun _ => true.

Definition faster_loads : option pystr -> pystr -> pystr -> result unit :=
  fun _ _ _ => Ok tt.

Definition faster_hello : pystr -> result (lazy_segments * Q) :=
  fun _ => Ok ({| yielded := [hello_raw]; failure := None |}, 10%Q).

Definition whisper_loads : pystr -> pystr -> result unit := fun _ _ => Ok tt.

Definition whisper_hello : pystr -> bool -> result (list raw_segment) :=
  fun _ _ => Ok [hello_raw].

Definition cpu_whisper : AudioTranscriber :=
  AudioTranscriber_init false false None true (lit "float16").

Definition cpu_faster : AudioTranscriber :=
  AudioTranscriber_init false true (Some (lit "models/small")) true (lit "int8").

Definition cpu_faster_no_path : AudioTranscriber :=
  AudioTranscriber_init false true None true (lit "int8").

Definition always_opens : pystr -> result unit := fun _ => Ok tt.

Definition always_writes : list event -> pystr -> result unit :=
  fun _ _ => Ok tt.

(** Every write to the open file succeeds. *)
Definition reliable (fs_write : list event -> pystr -> result unit) : Prop :=
  forall tr data, fs_write tr data = Ok tt.

(** No surrogate code point in the text. *)
Definition encodable (s : pystr) : Prop := existsb is_surrogate s = false.

Definition no_float_repr : Q -> pystr := fun _ => [].

Definition hello_writer (output_path : pystr) (use_translation : bool)
    : SubtitleGenerator :=
  {| segments := [hello];
     output_path := output_path;
     use_translation := use_translation |}.

(** [int(segment.end / total_duration * 100)] for a non-zero duration. *)
Definition duration_percent_of (total_duration : Q) (segment : raw_segment) : Z :=
  Qtrunc (fmul (fdiv (seg_end segment) total_duration) 100).

(** Segments that pace the audio: a positive duration, end times that
    are non-negative and non-decreasing, and a last segment that ends with
    the audio. *)
Definition paced (total_duration : Q) (raw : list raw_segment) : Prop :=
  (0 < total_duration)%Q
  /\ (forall i j a b,
        (i <= j)%nat -> raw !! i = Some a -> raw !! j = Some b ->
        (0 <= seg_end a)%Q /\ (seg_end a <= seg_end b)%Q)
  /\ (exists s, last raw = Some s /\ (seg_end s == total_duration)%Q).

(** A faster-whisper result whose only segment ends after the reported
    duration. *)
Definition faster_overshoot : pystr -> result (lazy_segments * Q) :=
  fun _ =>
    Ok ({| yielded := [{| seg_start := 0; seg_end := 12; seg_text := lit "Hello" |}];
           failure := None |}, 10%Q).

(** ** Notions used by the further properties *)

(** The command line of one translation request. *)
Definition request (name context text : pystr) : list pystr :=
  [lit "ollama"; lit "run"; name;
   prompt_rules ++ context ++ prompt_examples ++ text].

(** The segment is a [dict] whose text is the [str] [s]. *)
Definition has_text (segment : pyobj) (s : pystr) : Prop :=
  exists d, segment = ODict d /\ d !! "text" = Some (VStr s).

(** An engine that fails with a given exception. *)
Definition failing_engine (e : exn) : list event -> list pystr -> result pystr :=
  fun _ _ => Raise e.

(** An engine that answers with white space only. *)
Definition mute_engine : list event -> list pystr -> result pystr :=
  fun _ _ => Ok (lit " 
").

Definition translator_unnamed : Translator :=
  {| use_local_model := true; model_name := None |}.

(** [isinstance(e, subprocess.CalledProcessError)] *)
Definition is_called_process_error (e : exn) : bool :=
  match exn_cls e with
  | CalledProcessError => true
  | _ => false
  end.

(** [not s or not s.strip()] *)
Definition is_blank (s : pystr) : bool := negb (truthy (strip s)).

(** ** Paths *)

(** A path separator of the flavour. *)
Definition is_sep (os : os_flavour) (c : N) : bool :=
  match os with
  | Posix => (c =? 47)%N
  | NT => (c =? 92)%N || (c =? 47)%N
  end.

(** The parts of a path [dir ++ name ++ "." ++ ext] with an extension: a
    directory part that is empty or ends in a separator, a file name
    without separator that is not made of dots only, and an extension
    without dot or separator. *)
Definition path_parts (os : os_flavour) (dir name ext : pystr) : Prop :=
  (dir = [] \/ exists d c, dir = d ++ [c] /\ is_sep os c = true)
  /\ forallb (fun c => negb (is_sep os c)) name = true
  /\ has_non_dot name = true
  /\ forallb (fun c => negb (is_sep os c) && negb (c =? 46)%N) ext = true.

(** ** A store of three segments *)

Definition second_raw : raw_segment :=
  {| seg_start := 5 # 2; seg_end := 4; seg_text := lit " How are you? " |}.

Definition third_raw : raw_segment :=
  {| seg_start := 4; seg_end := 6; seg_text := lit "Fine." |}.

Definition three_segments : list pyobj :=
  [hello; store_segment second_raw; store_segment third_raw].

Definition whisper_three : pystr -> bool -> result (list raw_segment) :=
  fun _ _ => Ok [hello_raw; second_raw; third_raw].

Definition faster_three : pystr -> result (lazy_segments * Q) :=
  fun _ =>
    Ok ({| yielded := [hello_raw; second_raw; third_raw]; failure := None |},
        6%Q).

(** ** A backend that cannot be loaded *)





(** * Facts *)

(** ** Rounding *)

Section FloatFacts.
Local Open Scope Q_scope.

Ltac cmp_to_prop :=
  repeat match goal with
  | H : (_ ?= _)%Q = Eq |- _ => apply Qeq_alt in H
  | H : (_ ?= _)%Q = Lt |- _ => apply Qlt_alt in H
  | H : (_ ?= _)%Q = Gt |- _ => apply Qgt_alt in H
  end.

Lemma rne_inject_Z (n : Z) : rne (inject_Z n) = n.
Proof.
  unfold rne. rewrite Qfloor_Z.
  assert (H : (inject_Z n - inject_Z n ?= 1 # 2) = Lt).
  { rewrite <- Qlt_alt. lra. }
  now rewrite H.
Qed.

Lemma rne_bounds (x : Q) : (Qfloor x <= rne x <= Qfloor x + 1)%Z.
Proof.
  unfold rne. destruct (x - inject_Z (Qfloor x) ?= 1 # 2); [destruct (Z.even _)| |]; lia.
Qed.

Lemma rne_le (x y : Q) : x <= y -> (rne x <= rne y)%Z.
Proof.
  intros Hxy.
  pose proof (Qfloor_resp_le _ _ Hxy) as Hf.
  destruct (Z.eq_dec (Qfloor x) (Qfloor y)) as [E|NE].
  - unfold rne. rewrite E.
    destruct (x - inject_Z (Qfloor y) ?= 1 # 2) eqn:Hx;
      destruct (y - inject_Z (Qfloor y) ?= 1 # 2) eqn:Hy;
      try destruct (Z.even (Qfloor y)); try lia;
      cmp_to_prop; lra.
  - pose proof (rne_bounds x). pose proof (rne_bounds y). lia.
Qed.

Lemma pow2_pos (e : Z) : 0 < 2 ^ e.
Proof. apply Qpower_0_lt. reflexivity. Qed.

Lemma pow2_succ (e : Z) : 2 ^ (e + 1) == 2 * 2 ^ e.
Proof. rewrite Qpower_plus by discriminate. rewrite Qpower_1_r. ring. Qed.

Lemma pow2_le (a b : Z) : (a <= b)%Z -> 2 ^ a <= 2 ^ b.
Proof. intros H. apply Qpower_le_compat_l; [exact H | discriminate]. Qed.


Lemma Zpow2_Q (a : Z) : (0 <= a)%Z -> inject_Z (2 ^ a) == 2 ^ a.
Proof. intros H. now rewrite Zpower_Qpower. Qed.

Lemma log2_Q (p : Z) :
  (0 < p)%Z -> 2 ^ Z.log2 p <= inject_Z p /\ inject_Z p < 2 * 2 ^ Z.log2 p.
Proof.
  intros Hp. destruct (Z.log2_spec p Hp) as [H1 H2].
  pose proof (Z.log2_nonneg p) as H0.
  rewrite <- pow2_succ, <- !Zpow2_Q by lia.
  rewrite <- Zle_Qle, <- Zlt_Qlt. split; [exact H1 | exact H2].
Qed.

Lemma div_lt_div (a b c d : Q) :
  0 < b -> 0 < d -> a * d < c * b -> a / b < c / d.
Proof.
  intros Hb Hd H. apply Qlt_shift_div_r; [exact Hb|].
  assert (E : c / d * b == c * b / d) by (field; lra).
  rewrite E. apply Qlt_shift_div_l; [exact Hd | exact H].
Qed.

Lemma ilog2_spec (x : Q) :
  0 < x -> 2 ^ ilog2 x <= x /\ x < 2 ^ (ilog2 x + 1).
Proof.
  intros Hx. destruct x as [p q].
  assert (Hp : (0 < p)%Z) by (unfold Qlt in Hx; simpl in Hx; lia).
  unfold ilog2; cbn [Qnum Qden].
  destruct (log2_Q p Hp) as [Ha1 Ha2].
  destruct (log2_Q (Z.pos q) eq_refl) as [Hb1 Hb2].
  set (a := Z.log2 p) in *. set (b := Z.log2 (Z.pos q)) in *.
  pose proof (pow2_pos a) as HA. pose proof (pow2_pos b) as HB.
  assert (Hd : 2 ^ (a - b) == 2 ^ a / 2 ^ b) by (apply Qpower_minus; discriminate).
  assert (Hq : 0 < inject_Z (Z.pos q)) by reflexivity.
  assert (Hx' : p # q == inject_Z p / inject_Z (Z.pos q)) by apply Qmake_Qdiv.
  assert (Hlo : 2 ^ a / (2 * 2 ^ b) < inject_Z p / inject_Z (Z.pos q)).
  { apply div_lt_div; [lra | exact Hq | nra]. }
  assert (Hhi : inject_Z p / inject_Z (Z.pos q) < 2 * 2 ^ a / 2 ^ b).
  { apply div_lt_div; [exact Hq | exact HB | nra]. }
  rewrite <- Hx' in Hlo, Hhi.
  assert (E1 : 2 ^ a / (2 * 2 ^ b) == 2 ^ (a - b) * (1 # 2)) by (rewrite Hd; field; lra).
  assert (E2 : 2 * 2 ^ a / 2 ^ b == 2 * 2 ^ (a - b)) by (rewrite Hd; field; lra).
  rewrite E1 in Hlo. rewrite E2 in Hhi. clear E1 E2 Hx' Hx.
  generalize dependent (p # q). intros x Hlo Hhi.
  destruct (Qle_bool (2 ^ (a - b)) x) eqn:Hc.
  - apply Qle_bool_iff in Hc. split; [exact Hc|]. now rewrite pow2_succ.
  - assert (Hc' : x < 2 ^ (a - b)).
    { apply Qnot_le_lt. intros H. apply Qle_bool_iff in H. congruence. }
    replace (a - b - 1 + 1)%Z with (a - b)%Z by lia.
    split; [|exact Hc'].
    pose proof (pow2_succ (a - b - 1)) as Hs.
    replace (a - b - 1 + 1)%Z with (a - b)%Z in Hs by lia.
    generalize dependent (2 ^ (a - b - 1)). generalize dependent (2 ^ (a - b)).
    intros; clear - Hlo Hs; lra.
Qed.

Lemma ilog2_unique (x : Q) (e : Z) :
  2 ^ e <= x -> x < 2 ^ (e + 1) -> ilog2 x = e.
Proof.
  intros H1 H2.
  assert (Hx : 0 < x) by (pose proof (pow2_pos e); lra).
  destruct (ilog2_spec x Hx) as [H3 H4].
  assert (2 ^ e < 2 ^ (ilog2 x + 1)) as Ha by lra.
  assert (2 ^ ilog2 x < 2 ^ (e + 1)) as Hb by lra.
  apply Qpower_lt_compat_l_inv in Ha; [|reflexivity].
  apply Qpower_lt_compat_l_inv in Hb; [|reflexivity].
  lia.
Qed.

Lemma rne_comp (x y : Q) : x == y -> rne x = rne y.
Proof.
  intros H. unfold rne. rewrite (Qfloor_comp _ _ H).
  assert (E : (x - inject_Z (Qfloor y) ?= 1 # 2) = (y - inject_Z (Qfloor y) ?= 1 # 2)).
  { apply Qcompare_comp; [rewrite H|]; reflexivity. }
  now rewrite E.
Qed.

Lemma fl_comp (x y : Q) : x == y -> fl x = fl y.
Proof. intros H. unfold fl. now rewrite (Qred_complete _ _ H). Qed.

Lemma fl_0 : fl 0 = 0.
Proof. reflexivity. Qed.

(** The significand and exponent of [fl x] for a positive [x]. *)
Lemma fl_pos (x : Q) :
  0 < x ->
  fl x == inject_Z (rne (x / 2 ^ (ilog2 x - 52))) * 2 ^ (ilog2 x - 52).
Proof.
  intros Hx. unfold fl.
  pose proof (Qred_correct x) as Hr.
  destruct (Qred x) as [p q] eqn:E.
  assert (Hp : (0 < p)%Z).
  { rewrite <- Hr in Hx. unfold Qlt in Hx. simpl in Hx. lia. }
  cbn [Qnum]. destruct p as [|p|p]; try lia.
  rewrite Qred_correct.
  assert (Ha : Qabs (Z.pos p # q) = Z.pos p # q) by reflexivity.
  rewrite Ha.
  destruct (ilog2_spec x Hx) as [H1 H2].
  assert (Hi : ilog2 (Z.pos p # q) = ilog2 x).
  { apply ilog2_unique; rewrite Hr; assumption. }
  rewrite Hi.
  rewrite (rne_comp ((Z.pos p # q) / 2 ^ (ilog2 x - 52)) (x / 2 ^ (ilog2 x - 52)));
    [reflexivity | now rewrite Hr].
Qed.

Lemma scaled_bounds (x : Q) :
  0 < x ->
  2 ^ 52 <= x / 2 ^ (ilog2 x - 52) /\ x / 2 ^ (ilog2 x - 52) < 2 ^ 53.
Proof.
  intros Hx. destruct (ilog2_spec x Hx) as [H1 H2].
  pose proof (pow2_pos (ilog2 x - 52)) as Hu.
  assert (E1 : 2 ^ ilog2 x == 2 ^ 52 * 2 ^ (ilog2 x - 52)).
  { rewrite <- Qpower_plus by discriminate. now replace (52 + (ilog2 x - 52))%Z with (ilog2 x) by lia. }
  assert (E2 : 2 ^ (ilog2 x + 1) == 2 ^ 53 * 2 ^ (ilog2 x - 52)).
  { rewrite <- Qpower_plus by discriminate. now replace (53 + (ilog2 x - 52))%Z with (ilog2 x + 1)%Z by lia. }
  split.
  - apply Qle_shift_div_l; [exact Hu|]. now rewrite <- E1.
  - apply Qlt_shift_div_r; [exact Hu|]. now rewrite <- E2.
Qed.

Lemma significand_bounds (x : Q) :
  0 < x ->
  (2 ^ 52 <= rne (x / 2 ^ (ilog2 x - 52)) <= 2 ^ 53)%Z.
Proof.
  intros Hx. destruct (scaled_bounds x Hx) as [H1 H2].
  split.
  - rewrite <- (rne_inject_Z (2 ^ 52)). apply rne_le. exact H1.
  - rewrite <- (rne_inject_Z (2 ^ 53)). apply rne_le. apply Qlt_le_weak. exact H2.
Qed.

Lemma fl_nonneg (x : Q) : 0 <= x -> 0 <= fl x.
Proof.
  intros Hx. destruct (Qlt_le_dec 0 x) as [Hp|Hn].
  - rewrite (fl_pos x Hp).
    pose proof (significand_bounds x Hp) as [Hs _].
    apply Qmult_le_0_compat.
    + change 0 with (inject_Z 0). rewrite <- Zle_Qle. lia.
    + apply Qlt_le_weak, pow2_pos.
  - rewrite (fl_comp x 0) by lra. discriminate.
Qed.

(** Rounding is monotone. *)
Lemma fl_le (x y : Q) : 0 <= x -> x <= y -> fl x <= fl y.
Proof.
  intros Hx Hxy. destruct (Qlt_le_dec 0 x) as [Hp|Hn].
  2:{ rewrite (fl_comp x 0) by lra. apply fl_nonneg. lra. }
  assert (Hy : 0 < y) by lra.
  rewrite (fl_pos x Hp), (fl_pos y Hy).
  destruct (ilog2_spec x Hp) as [Hx1 Hx2].
  destruct (ilog2_spec y Hy) as [Hy1 Hy2].
  assert (Hexy : (ilog2 x <= ilog2 y)%Z).
  { assert (H : 2 ^ ilog2 x < 2 ^ (ilog2 y + 1)) by lra.
    apply Qpower_lt_compat_l_inv in H; [lia | reflexivity]. }
  pose proof (pow2_pos (ilog2 x - 52)) as Hux.
  pose proof (pow2_pos (ilog2 y - 52)) as Huy.
  destruct (Z.eq_dec (ilog2 x) (ilog2 y)) as [E|NE].
  - rewrite E in *. apply Qmult_le_compat_r; [|lra].
    rewrite <- Zle_Qle. apply rne_le.
    apply Qmult_le_compat_r; [exact Hxy|].
    apply Qlt_le_weak, Qinv_lt_0_compat, Huy.
  - pose proof (significand_bounds x Hp) as [_ Hsx].
    pose proof (significand_bounds y Hy) as [Hsy _].
    apply Qle_trans with (2 ^ (ilog2 x + 1)).
    + assert (E2 : 2 ^ (ilog2 x + 1) == inject_Z (2 ^ 53) * 2 ^ (ilog2 x - 52)).
      { change (inject_Z (2 ^ 53)) with (2 ^ 53).
        rewrite <- Qpower_plus by discriminate.
        now replace (53 + (ilog2 x - 52))%Z with (ilog2 x + 1)%Z by lia. }
      rewrite E2. apply Qmult_le_compat_r; [|lra]. now rewrite <- Zle_Qle.
    + apply Qle_trans with (2 ^ ilog2 y); [apply pow2_le; lia|].
      assert (E1 : 2 ^ ilog2 y == inject_Z (2 ^ 52) * 2 ^ (ilog2 y - 52)).
      { change (inject_Z (2 ^ 52)) with (2 ^ 52).
        rewrite <- Qpower_plus by discriminate.
        now replace (52 + (ilog2 y - 52))%Z with (ilog2 y) by lia. }
      rewrite E1. apply Qmult_le_compat_r; [|lra]. now rewrite <- Zle_Qle.
Qed.

End FloatFacts.

(** ** Percentages *)

Section PercentFacts.
Local Open Scope Q_scope.

Lemma Qtrunc_floor (x : Q) : 0 <= x -> Qtrunc x = Qfloor x.
Proof.
  destruct x as [p q]. unfold Qle, Qtrunc, Qfloor. simpl. intros H.
  apply Z.quot_div_nonneg; lia.
Qed.

Lemma Qtrunc_le (x y : Q) : 0 <= x -> x <= y -> (Qtrunc x <= Qtrunc y)%Z.
Proof.
  intros Hx Hxy. rewrite !Qtrunc_floor by lra. now apply Qfloor_resp_le.
Qed.

Lemma Qtrunc_comp (x y : Q) : 0 <= x -> x == y -> Qtrunc x = Qtrunc y.
Proof.
  intros Hx E. rewrite !Qtrunc_floor by lra. now apply Qfloor_comp.
Qed.

Lemma ratio_bounds (k total : Z) :
  (0 < total)%Z -> (0 <= k <= total)%Z ->
  0 <= inject_Z k / inject_Z total /\ inject_Z k / inject_Z total <= 1.
Proof.
  intros Ht Hk.
  assert (HT : 0 < inject_Z total) by (change 0 with (inject_Z 0); rewrite <- Zlt_Qlt; lia).
  split.
  - apply Qle_shift_div_l; [exact HT|]. rewrite Qmult_0_l.
    change 0 with (inject_Z 0); rewrite <- Zle_Qle; lia.
  - apply Qle_shift_div_r; [exact HT|]. rewrite Qmult_1_l. rewrite <- Zle_Qle; lia.
Qed.

Lemma ratio_le (k k' total : Z) :
  (0 < total)%Z -> (k <= k')%Z ->
  inject_Z k / inject_Z total <= inject_Z k' / inject_Z total.
Proof.
  intros Ht Hk.
  assert (HT : 0 < inject_Z total) by (change 0 with (inject_Z 0); rewrite <- Zlt_Qlt; lia).
  apply Qmult_le_compat_r; [rewrite <- Zle_Qle; lia|].
  apply Qlt_le_weak, Qinv_lt_0_compat, HT.
Qed.

Lemma fl_1 : fl 1 = 1.
Proof. reflexivity. Qed.

Lemma fl_100 : fl 100 = 100.
Proof. reflexivity. Qed.

Lemma fl_pred_one : fl pred_one = pred_one.
Proof. reflexivity. Qed.

Lemma fdiv_unit (k total : Z) :
  (0 < total)%Z -> (0 <= k <= total)%Z ->
  0 <= fdiv (inject_Z k) (inject_Z total) <= 1.
Proof.
  intros Ht Hk. destruct (ratio_bounds k total Ht Hk) as [H0 H1]. unfold fdiv. split.
  - now apply fl_nonneg.
  - rewrite <- fl_1. now apply fl_le.
Qed.

Lemma percent_range (k total : Z) :
  (0 < total)%Z -> (0 <= k <= total)%Z -> (0 <= percent k total <= 100)%Z.
Proof.
  intros Ht Hk. destruct (fdiv_unit k total Ht Hk) as [H0 H1].
  unfold percent, fmul.
  set (q := fdiv (inject_Z k) (inject_Z total)) in *.
  assert (Hlo : 0 <= fl (q * 100)) by (apply fl_nonneg; lra).
  assert (Hhi : fl (q * 100) <= fl 100) by (apply fl_le; lra).
  rewrite fl_100 in Hhi.
  split.
  - apply (Qtrunc_le 0); lra.
  - apply (Qtrunc_le _ 100); lra.
Qed.

Lemma percent_le (k k' total : Z) :
  (0 < total)%Z -> (0 <= k <= k')%Z -> (k' <= total)%Z ->
  (percent k total <= percent k' total)%Z.
Proof.
  intros Ht Hk Hk'.
  destruct (fdiv_unit k total Ht) as [H0 H1]; [lia|].
  assert (Hq : fdiv (inject_Z k) (inject_Z total) <= fdiv (inject_Z k') (inject_Z total)).
  { apply fl_le; [apply ratio_bounds; lia | apply ratio_le; lia]. }
  unfold percent, fmul. apply Qtrunc_le.
  - apply fl_nonneg. lra.
  - apply fl_le; lra.
Qed.

Lemma percent_full (total : Z) : (0 < total)%Z -> percent total total = 100%Z.
Proof.
  intros Ht. unfold percent, fmul, fdiv.
  assert (E : inject_Z total / inject_Z total == 1).
  { field. intros H. change 0 with (inject_Z 0) in H. apply eq_sym in H.
    unfold Qeq in H. simpl in H. lia. }
  now rewrite (fl_comp _ _ E).
Qed.

Lemma percent_below (k total : Z) :
  (0 < total <= 2 ^ 53)%Z -> (0 <= k < total)%Z -> (percent k total < 100)%Z.
Proof.
  intros Ht Hk.
  assert (HT : 0 < inject_Z total) by (change 0 with (inject_Z 0); rewrite <- Zlt_Qlt; lia).
  assert (Hr : inject_Z k / inject_Z total <= pred_one).
  { apply Qle_shift_div_r; [exact HT|]. unfold pred_one, Qle, Qmult; simpl.
    lia. }
  assert (Hq : fdiv (inject_Z k) (inject_Z total) <= pred_one).
  { rewrite <- fl_pred_one. apply fl_le; [apply ratio_bounds; lia | exact Hr]. }
  destruct (fdiv_unit k total) as [H0 _]; [lia | lia |].
  unfold percent, fmul.
  set (q := fdiv (inject_Z k) (inject_Z total)) in *.
  assert (Hp : fl (q * 100) <= fl (pred_one * 100)) by (apply fl_le; lra).
  assert (Hn : 0 <= fl (q * 100)) by (apply fl_nonneg; lra).
  apply Z.le_lt_trans with (Qtrunc (fl (pred_one * 100))).
  - apply Qtrunc_le; assumption.
  - reflexivity.
Qed.

End PercentFacts.

(** ** Counting progress *)

Lemma count_progress_length (n : nat) : length (count_progress n) = n.
Proof. unfold count_progress. now rewrite length_fmap, length_seq. Qed.

Lemma count_progress_lookup (n i : nat) (p : Z) :
  count_progress n !! i = Some p ->
  (i < n)%nat /\ p = percent (Z.of_nat i + 1) (Z.of_nat n).
Proof.
  unfold count_progress. rewrite list_lookup_fmap.
  destruct (seq 0 n !! i) as [j|] eqn:E; [|discriminate].
  apply lookup_seq in E as [-> Hi]. simpl. intros [= <-]. split; [lia | reflexivity].
Qed.

Lemma count_progress_last (n : nat) :
  (0 < n)%nat -> last (count_progress n) = Some 100.
Proof.
  intros Hn. rewrite last_lookup, count_progress_length.
  unfold count_progress. rewrite list_lookup_fmap.
  rewrite (lookup_seq_lt 0 n (pred n)) by lia. simpl.
  replace (Z.of_nat (pred n) + 1) with (Z.of_nat n) by lia.
  rewrite percent_full by lia. reflexivity.
Qed.

Lemma count_progress_contract (n : nat) :
  (0 < n)%nat -> progress_contract (count_progress n).
Proof.
  intros Hn. split; [|split].
  - apply Forall_lookup. intros i p Hp.
    apply count_progress_lookup in Hp as [Hi ->].
    apply percent_range; lia.
  - intros i j p q Hij Hp Hq.
    apply count_progress_lookup in Hp as [Hi ->].
    apply count_progress_lookup in Hq as [Hj ->].
    apply percent_le; lia.
  - now apply count_progress_last.
Qed.

Lemma count_progress_hundred (n : nat) :
  Z.of_nat n <= 2 ^ 53 -> hundred_only_last (count_progress n).
Proof.
  intros Hn i Hi. rewrite count_progress_length.
  apply count_progress_lookup in Hi as [Hi Hp].
  destruct (decide (S i = n)) as [E|NE]; [exact E|].
  pose proof (percent_below (Z.of_nat i + 1) (Z.of_nat n)) as H.
  lia.
Qed.

(** ** Response clean-up *)

Lemma join_nil_cons (p : pystr) (ps : list pystr) :
  join [] (p :: ps) = p ++ join [] ps.
Proof. destruct ps; simpl; [now rewrite app_nil_r | reflexivity]. Qed.

Lemma findall_runs_join (s run : pystr) :
  join [] (findall_runs run s) = rev run ++ List.filter in_class s.
Proof.
  revert run. induction s as [|c r IH]; intros run; simpl.
  - destruct run; simpl; [reflexivity | now rewrite app_nil_r].
  - destruct (in_class c).
    + rewrite IH. simpl. now rewrite <- app_assoc.
    + destruct run as [|x run'].
      * now rewrite IH.
      * rewrite join_nil_cons, IH. reflexivity.
Qed.

(** Joining what [findall] returns keeps exactly the characters of the
    class, in order. *)
Lemma findall_join (s : pystr) : join [] (findall s) = List.filter in_class s.
Proof. unfold findall. now rewrite findall_runs_join. Qed.

(** The code points of [allowed_punct]. *)
Lemma allowed_punct_codes :
  allowed_punct
  = [65292; 12290; 65281; 65311; 65306; 65307; 12289; 34; 34; 8230; 8230;
     8212; 183; 12298; 12299; 12304; 12305]%N.
Proof. vm_compute. reflexivity. Qed.

Lemma in_class_not_space (c : N) : in_class c = true -> is_space c = false.
Proof.
  unfold in_class, in_allowed_punct, is_space. intros H.
  apply orb_true_iff in H as [H|H].
  - repeat (apply orb_true_iff in H as [H|H]);
      apply andb_true_iff in H as [H1 H2];
      apply N.leb_le in H1; apply N.leb_le in H2;
      repeat (apply orb_false_iff; split);
      try (apply andb_false_iff);
      rewrite ?N.leb_gt, ?N.eqb_neq; lia.
  - rewrite allowed_punct_codes in H. cbn [existsb] in H.
    repeat (apply orb_true_iff in H as [H|H]); try discriminate;
      apply N.eqb_eq in H; subst c; reflexivity.
Qed.

Lemma lstrip_class_only (s : pystr) : class_only s -> lstrip s = s.
Proof.
  destruct 1 as [|c r Hc Hr]; [reflexivity|].
  simpl. now rewrite (in_class_not_space c Hc).
Qed.

Lemma strip_class_only (s : pystr) : class_only s -> strip s = s.
Proof.
  intros H. unfold strip, rstrip. rewrite (lstrip_class_only s H).
  rewrite lstrip_class_only; [apply rev_involutive|].
  unfold class_only. apply Forall_forall. intros c Hc.
  apply list_elem_of_In, in_rev, list_elem_of_In in Hc.
  revert c Hc. now apply Forall_forall.
Qed.

Lemma filter_class_only (s : pystr) : class_only (List.filter in_class s).
Proof.
  apply Forall_forall. intros c Hc.
  apply list_elem_of_In, filter_In in Hc. tauto.
Qed.

Lemma filter_id (s : pystr) : class_only s -> List.filter in_class s = s.
Proof.
  induction 1 as [|c r Hc Hr IH]; [reflexivity|].
  simpl. now rewrite Hc, IH.
Qed.

Lemma removelast_class_only (s : pystr) : class_only s -> class_only (removelast s).
Proof.
  induction 1 as [|c r Hc Hr IH]; [constructor|].
  simpl. destruct r; [constructor | now constructor].
Qed.

Lemma drop_final_punct_class_only (s : pystr) :
  class_only s -> class_only (drop_final_punct s).
Proof.
  intros H. unfold drop_final_punct.
  destruct (truthy s && ends_in_punct s); [now apply removelast_class_only | exact H].
Qed.

(** The clean-up as a filter followed by dropping one final punctuation
    mark: the second [strip] has nothing left to remove. *)
Lemma sanitize_filter (s : pystr) :
  sanitize s = drop_final_punct (List.filter in_class (strip s)).
Proof.
  unfold sanitize. rewrite findall_join.
  apply strip_class_only, drop_final_punct_class_only, filter_class_only.
Qed.

Lemma sanitize_class_only (s : pystr) : class_only (sanitize s).
Proof.
  rewrite sanitize_filter.
  apply drop_final_punct_class_only, filter_class_only.
Qed.

(** Cleaning a cleaned text again only drops one more final punctuation
    mark, if there is one. *)
Lemma sanitize_twice (s : pystr) :
  sanitize (sanitize s) = drop_final_punct (sanitize s).
Proof.
  pose proof (sanitize_class_only s) as H.
  rewrite (sanitize_filter (sanitize s)).
  now rewrite (strip_class_only _ H), (filter_id _ H).
Qed.

(** ** Traces *)

Lemma progress_values_app (a b : list event) :
  progress_values (a ++ b) = progress_values a ++ progress_values b.
Proof. apply omap_app. Qed.

Lemma engine_calls_app (a b : list event) :
  engine_calls (a ++ b) = engine_calls a ++ engine_calls b.
Proof. apply omap_app. Qed.

Lemma new_events_app (st st' : state) (evs : list event) :
  trace st' = trace st ++ evs -> new_events st st' = evs.
Proof. intros H. unfold new_events. rewrite H. apply drop_app_length. Qed.

Ltac munfold :=
  unfold bind, ret, raise, try_except, emit, report, call,
    list_new, list_get, list_append, subscript in *.

(** ** Translation *)

Section TranslationFacts.

Variable ollama : list event -> list pystr -> result pystr.

Lemma blank_test (s : pystr) :
  negb (truthy s) || negb (truthy (strip s)) = negb (truthy (strip s)).
Proof. destruct s; [reflexivity|]. simpl. reflexivity. Qed.

(** An engine call leaves the heap alone and adds at most one [EvRun]. *)
Lemma translate_with_ollama_frame self ctx text st st' r :
  translate_with_ollama ollama self ctx text st = (st', r) ->
  heap st' = heap st
  /\ (trace st' = trace st \/ exists cmd, trace st' = trace st ++ [EvRun cmd]).
Proof.
  unfold translate_with_ollama, subprocess_run. munfold. intros H.
  repeat case_match; simplify_eq; simpl; eauto.
Qed.

Lemma translate_with_ollama_ok self ctx text st st' t :
  translate_with_ollama ollama self ctx text st = (st', Ok t) ->
  heap st' = heap st /\ exists cmd, trace st' = trace st ++ [EvRun cmd].
Proof.
  unfold translate_with_ollama, subprocess_run. munfold. intros H.
  repeat case_match; simplify_eq; simpl; eauto.
Qed.

Lemma translate_with_ollama_blank self ctx s st :
  blank s ->
  translate_with_ollama ollama self ctx (VStr s) st = (st, Raise (Exn ValueError)).
Proof.
  unfold blank. intros H. unfold translate_with_ollama. munfold.
  rewrite blank_test, H. reflexivity.
Qed.

Lemma translate_one_ok self total ctx out cb i segment st st' :
  translate_one ollama self total ctx out cb i segment st = (st', Ok tt) ->
  exists new evs,
    translated_from self segment new
    /\ heap st' = <[out := default [] (heap st !! out) ++ [new]]> (heap st)
    /\ trace st' = trace st ++ evs
    /\ progress_values evs =
         (if cb then [percent (Z.of_nat i + 1) (Z.of_nat total)] else [])
    /\ (local_model_on self = false -> engine_calls evs = []).
Proof.
  unfold translate_one. munfold. intros H.
  destruct segment as [d|v]; [|discriminate].
  destruct (d !! "text") as [text|] eqn:Ht; [|discriminate].
  destruct (local_model_on self) eqn:Hon.
  - destruct (translate_with_ollama ollama self ctx text st) as [st1 [t|e]] eqn:Ho;
      [|discriminate].
    apply translate_with_ollama_ok in Ho as [Hh [cmd Htr]].
    destruct (d !! "start") as [start|] eqn:Hs; [|discriminate].
    destruct (d !! "end") as [end_|] eqn:He; [|discriminate].
    exists (ODict (translated_segment start end_ text (VStr t))).
    exists (EvRun cmd :: (if cb then [EvProgress (percent (Z.of_nat i + 1) (Z.of_nat total))] else [])).
    split.
    { exists d, text, start, end_, (VStr t). repeat split; try assumption. congruence. }
    destruct cb; simpl in H; simplify_eq; simpl; rewrite ?Hh, ?Htr, <- ?app_assoc;
      repeat split; intros; (reflexivity || congruence).
  - destruct (d !! "start") as [start|] eqn:Hs; [|discriminate].
    destruct (d !! "end") as [end_|] eqn:He; [|discriminate].
    exists (ODict (translated_segment start end_ text text)).
    exists (if cb then [EvProgress (percent (Z.of_nat i + 1) (Z.of_nat total))] else []).
    split.
    { exists d, text, start, end_, text. repeat split; assumption. }
    destruct cb; simpl in H; simplify_eq; simpl; rewrite ?app_nil_r;
      repeat split; intros; reflexivity.
Qed.

Lemma bind_ok_inv {A B} (m : M A) (k : A -> M B) st st' b :
  bind m k st = (st', Ok b) ->
  exists st1 a, m st = (st1, Ok a) /\ k a st1 = (st', Ok b).
Proof.
  unfold bind. destruct (m st) as [st1 [a|e]]; [eauto | discriminate].
Qed.

Lemma bind_eq {A B} (m : M A) (k : A -> M B) st st1 a :
  m st = (st1, Ok a) -> bind m k st = k a st1.
Proof. intros H. unfold bind. now rewrite H. Qed.

Lemma bind_raise {A B} (m : M A) (k : A -> M B) st st1 e :
  m st = (st1, Raise e) -> bind m k st = (st1, Raise e).
Proof. intros H. unfold bind. now rewrite H. Qed.

Lemma try_except_raise {A} (m : M A) (h : exn -> M A) st st1 e :
  m st = (st1, Raise e) -> try_except m h st = h e st1.
Proof. intros H. unfold try_except. now rewrite H. Qed.

Lemma try_except_ok {A} (m : M A) (h : exn -> M A) st st1 a :
  m st = (st1, Ok a) -> try_except m h st = (st1, Ok a).
Proof. intros H. unfold try_except. now rewrite H. Qed.

Lemma translate_loop_ok self total ctx out cb segs : forall i st st',
  translate_loop ollama self total ctx out cb i segs st = (st', Ok tt) ->
  (out < length (heap st))%nat ->
  exists news evs,
    Forall2 (translated_from self) segs news
    /\ heap st' = <[out := default [] (heap st !! out) ++ news]> (heap st)
    /\ trace st' = trace st ++ evs
    /\ progress_values evs =
         (if cb
          then (fun j => percent (Z.of_nat j + 1) (Z.of_nat total))
                 <$> seq i (length segs)
          else [])
    /\ (local_model_on self = false -> engine_calls evs = []).
Proof.
  induction segs as [|segment rest IH]; intros i st st' H Hout; simpl in H.
  - unfold ret in H. simplify_eq. exists [], [].
    destruct (lookup_lt_is_Some_2 _ _ Hout) as [acc Hacc].
    rewrite Hacc. simpl. rewrite !app_nil_r, list_insert_id by exact Hacc.
    repeat split; try constructor. now destruct cb.
  - apply bind_ok_inv in H as (st1 & [] & H1 & H2).
    apply translate_one_ok in H1 as (new & evs1 & Hnew & Hh1 & Ht1 & Hp1 & He1).
    assert (Hout1 : (out < length (heap st1))%nat) by (now rewrite Hh1, length_insert).
    apply IH in H2 as (news & evs2 & Hnews & Hh2 & Ht2 & Hp2 & He2); [|exact Hout1].
    exists (new :: news), (evs1 ++ evs2).
    split; [now constructor|].
    split.
    { rewrite Hh2, Hh1. rewrite list_lookup_insert_eq by exact Hout.
      simpl. rewrite list_insert_insert_eq, <- app_assoc. reflexivity. }
    split; [now rewrite Ht2, Ht1, app_assoc|].
    split.
    { rewrite progress_values_app, Hp1, Hp2. now destruct cb. }
    intros Hoff. rewrite engine_calls_app, He1, He2 by exact Hoff. reflexivity.
Qed.

(** A successful [translate_segments] run: the result is a list object
    that did not exist before, every existing list object is as it was,
    and the new list holds one new [dict] for each segment, in order. *)
Lemma translate_segments_ok self segments cb st st' r :
  translate_segments ollama self segments cb st = (st', Ok r) ->
  exists segs news evs,
    heap st !! segments = Some segs
    /\ segs <> []
    /\ r = length (heap st)
    /\ heap st' = heap st ++ [news]
    /\ Forall2 (translated_from self) segs news
    /\ trace st' = trace st ++ evs
    /\ progress_values evs = (if cb then count_progress (length segs) else [])
    /\ (local_model_on self = false -> engine_calls evs = []).
Proof.
  unfold translate_segments. intros H.
  apply bind_ok_inv in H as (st0 & segs & H0 & H).
  unfold list_get, ret in H0. simplify_eq.
  destruct (heap st0 !! segments) as [segs|] eqn:Hsegs; simpl in H; [|discriminate].
  destruct segs as [|s0 rest]; [discriminate|].
  unfold try_except in H.
  match type of H with
  | (match ?m st0 with _ => _ end) = _ => destruct (m st0) as [st2 [r2|e]] eqn:Hm
  end; [|discriminate].
  simplify_eq.
  apply bind_ok_inv in Hm as (st1 & out & Hnew & Hm).
  unfold list_new in Hnew. simplify_eq.
  apply bind_ok_inv in Hm as (st2 & ctx & Hctx & Hm).
  assert (Hfr : heap st2 = heap st0 ++ [[]] /\ trace st2 = trace st0).
  { destruct (local_model_on self).
    - apply bind_ok_inv in Hctx as (sa & ts & Ha & Hctx).
      apply bind_ok_inv in Hctx as (sb & ss & Hb & Hctx).
      unfold ret in Hctx. simplify_eq.
      assert (Hpure1 : forall l s s' (x : list value), texts_of l s = (s', Ok x) -> s' = s).
      { clear. induction l as [|[d|v] l IH]; simpl; intros s s' x H.
        - unfold ret in H. now simplify_eq.
        - apply bind_ok_inv in H as (s1 & t & H1 & H).
          apply bind_ok_inv in H as (s2 & ts & H2 & H).
          unfold ret in H. simplify_eq. apply IH in H2. subst.
          unfold subscript in H1. destruct (d !! "text"); unfold ret, raise in H1; now simplify_eq.
        - discriminate. }
      assert (Hpure2 : forall l s s' (x : list pystr), all_str l s = (s', Ok x) -> s' = s).
      { clear. induction l as [|[q|t] l IH]; simpl; intros s s' x H.
        - unfold ret in H. now simplify_eq.
        - discriminate.
        - apply bind_ok_inv in H as (s1 & ss & H1 & H).
          unfold ret in H. simplify_eq. now apply IH in H1. }
      apply Hpure1 in Ha. apply Hpure2 in Hb. subst. now simpl.
    - unfold ret in Hctx. simplify_eq. now simpl. }
  destruct Hfr as [Hh2 Ht2].
  apply bind_ok_inv in Hm as (st3 & [] & Hloop & Hm).
  unfold ret in Hm. simplify_eq.
  apply translate_loop_ok in Hloop
    as (news & evs & Hnews & Hh3 & Ht3 & Hp3 & He3);
    [|rewrite Hh2, length_app; simpl; lia].
  exists (s0 :: rest), news, evs.
  repeat split; try assumption.
  - discriminate.
  - rewrite Hh3, Hh2. rewrite lookup_app_r by lia.
    rewrite Nat.sub_diag. simpl.
    rewrite insert_app_r_alt by lia. rewrite Nat.sub_diag. reflexivity.
  - now rewrite Ht3, Ht2.
Qed.

Lemma local_model_off self :
  use_local_model self = false \/ name_given self = false ->
  local_model_on self = false.
Proof.
  unfold local_model_on. intros [H|H]; rewrite H; [reflexivity | apply andb_false_r].
Qed.

Lemma translate_one_off self total ctx out cb i segment st :
  local_model_on self = false ->
  plain_segment segment ->
  exists st', translate_one ollama self total ctx out cb i segment st = (st', Ok tt).
Proof.
  intros Hoff (d & -> & [text Ht] & [start Hs] & [end_ He]).
  unfold translate_one. munfold. rewrite Ht, Hoff, Hs, He.
  destruct cb; simpl; eauto.
Qed.

Lemma translate_loop_off self total ctx out cb segs :
  local_model_on self = false ->
  Forall plain_segment segs ->
  forall i st, exists st',
    translate_loop ollama self total ctx out cb i segs st = (st', Ok tt).
Proof.
  intros Hoff. induction 1 as [|segment rest Hs Hrest IH]; intros i st; simpl.
  - unfold ret. eauto.
  - destruct (translate_one_off self total ctx out cb i segment st Hoff Hs) as [st1 H1].
    destruct (IH (S i) st1) as [st2 H2].
    exists st2. unfold bind. now rewrite H1.
Qed.

(** With the local model off, translation of plain segments succeeds. *)
Lemma translate_segments_off self segments cb st segs :
  local_model_on self = false ->
  heap st !! segments = Some segs ->
  segs <> [] ->
  Forall plain_segment segs ->
  exists st' r, translate_segments ollama self segments cb st = (st', Ok r).
Proof.
  intros Hoff Hsegs Hne Hplain.
  unfold translate_segments, bind at 1, list_get. rewrite Hsegs. simpl.
  destruct segs as [|s0 rest]; [congruence|].
  unfold try_except, bind at 1, list_new. rewrite Hoff.
  unfold bind at 1, ret at 1.
  destruct (translate_loop_off self (length (s0 :: rest)) [] (length (heap st)) cb
              (s0 :: rest) Hoff Hplain 0%nat
              {| trace := trace st; heap := heap st ++ [[]] |}) as [st2 H2].
  unfold bind. rewrite H2. unfold ret. eauto.
Qed.

(** With the local model on and a name given, a non-blank text costs
    exactly one engine call, whatever the engine does. *)
Lemma translate_with_ollama_calls self ctx t st :
  local_model_on self = true ->
  ~ blank t ->
  exists cmd r,
    translate_with_ollama ollama self ctx (VStr t) st
    = ({| trace := trace st ++ [EvRun cmd]; heap := heap st |}, r)
    /\ (forall out, ollama (trace st) cmd = Ok out -> ~ blank out ->
          r = Ok (sanitize out)).
Proof.
  unfold local_model_on, name_given, blank. intros Hon Hnb.
  apply andb_true_iff in Hon as [_ Hname].
  destruct (model_name self) as [name|] eqn:En; [|discriminate].
  unfold translate_with_ollama. munfold. rewrite blank_test, En.
  destruct (strip t) eqn:Et; [congruence|]. simpl. rewrite Hname. simpl.
  unfold subprocess_run.
  match goal with
  | |- context [ollama (trace st) ?c] => exists c; set (cmd := c)
  end.
  destruct (ollama (trace st) cmd) as [out|e] eqn:Eo.
  - rewrite blank_test. destruct (strip out) eqn:Es; simpl.
    + eexists. split; [reflexivity|]. intros out' [= <-] Hb. congruence.
    + eexists. split; [reflexivity|]. intros out' [= <-] _. reflexivity.
  - destruct (exn_cls e); simpl;
      (eexists; split; [reflexivity | intros out' Hout; discriminate]).
Qed.

(** The loop stops at the first blank text: the engine has been called at
    most once for each segment before it, and not for the blank one. *)
Lemma translate_loop_blank self total ctx out cb pre d t post :
  local_model_on self = true ->
  Forall spoken_segment pre ->
  d !! "text" = Some (VStr t) ->
  blank t ->
  forall i st, exists st' e evs,
    translate_loop ollama self total ctx out cb i (pre ++ ODict d :: post) st
    = (st', Raise (ExnFrom RuntimeError e))
    /\ trace st' = trace st ++ evs
    /\ (length (engine_calls evs) <= length pre)%nat
    /\ (pre = [] -> e = Exn ValueError /\ evs = [])
    /\ (answers ollama ->
        e = Exn ValueError /\ length (engine_calls evs) = length pre).
Proof.
  intros Hon Hpre Ht Hb. induction Hpre as [|segment rest Hs Hrest IH]; intros i st.
  - simpl. unfold bind, translate_one, try_except, bind. rewrite Ht, Hon.
    rewrite (translate_with_ollama_blank self ctx t st Hb).
    exists st, (Exn ValueError), []. repeat split; rewrite ?app_nil_r; try reflexivity; simpl; lia.
  - destruct Hs as (ds & ts & -> & Hts & Hnb & [start Hst] & [end_ Hen]).
    destruct (translate_with_ollama_calls self ctx ts st Hon Hnb) as (cmd & r & Hr & Hans).
    simpl. unfold bind at 1. unfold translate_one, try_except, bind at 1.
    rewrite Hts, Hon. unfold bind at 1. rewrite Hr.
    destruct r as [tr|e0].
    + unfold ret at 1. unfold bind at 1, subscript. rewrite Hst.
      unfold ret at 1. unfold bind at 1. rewrite Hen. unfold ret at 1.
      unfold bind at 1, list_append. unfold report.
      match goal with
      | |- context [(if cb then ?a else ?b) ?s] =>
          destruct ((if cb then a else b) s) as [st1 r1] eqn:E1
      end.
      assert (Hst1 : r1 = Ok tt /\ exists evp, trace st1 = trace st ++ [EvRun cmd] ++ evp
                                    /\ engine_calls evp = []).
      { destruct cb; unfold emit, ret in E1; simplify_eq; simpl; split; try reflexivity.
        - eexists. rewrite <- app_assoc. split; reflexivity.
        - exists []. split; reflexivity. }
      destruct Hst1 as [-> (evp & Htr1 & Hep)].
      destruct (IH (S i) st1) as (st' & e & evs & Hl & Htr & Hlen & _ & Hans').
      exists st', e, ([EvRun cmd] ++ evp ++ evs).
      split; [exact Hl|].
      split; [rewrite Htr, Htr1, <- !app_assoc; reflexivity|].
      rewrite !engine_calls_app, Hep. simpl.
      split; [lia|]. split; [discriminate|].
      intros Ha. destruct (Hans' Ha) as [-> Hn]. split; [reflexivity | lia].
    + exists {| trace := trace st ++ [EvRun cmd]; heap := heap st |}, e0, [EvRun cmd].
      unfold raise. simpl.
      split; [reflexivity|]. split; [reflexivity|]. split; [lia|].
      split; [discriminate|].
      intros Ha. destruct (Ha (trace st) cmd) as (o & Ho & Hno).
      specialize (Hans o Ho Hno). discriminate.
Qed.

Lemma context_prompt_ok segs st :
  Forall str_segment segs ->
  exists ss,
    (ts <- texts_of segs ;; ss <- all_str ts ;;
     ret (context_intro ++ join separator ss)) st
    = (st, Ok (context_intro ++ join separator ss)).
Proof.
  intros H.
  assert (G : exists ts ss, texts_of segs st = (st, Ok ts) /\ all_str ts st = (st, Ok ss)).
  { induction H as [|segment rest Hs Hrest IH]; simpl.
    - exists [], []. split; reflexivity.
    - destruct Hs as (d & t & -> & Ht).
      destruct IH as (ts & ss & H1 & H2).
      exists (VStr t :: ts), (t :: ss). split.
      + unfold subscript. rewrite Ht.
        rewrite (bind_eq _ _ st st (VStr t)) by reflexivity.
        rewrite (bind_eq _ _ st st ts) by exact H1. reflexivity.
      + simpl. rewrite (bind_eq _ _ st st ss) by exact H2. reflexivity. }
  destruct G as (ts & ss & H1 & H2). exists ss.
  rewrite (bind_eq _ _ st st ts) by exact H1.
  rewrite (bind_eq _ _ st st ss) by exact H2. reflexivity.
Qed.

(** A blank text fails the run when the loop reaches it. *)
Lemma translate_segments_blank self segments cb st pre d t post :
  local_model_on self = true ->
  heap st !! segments = Some (pre ++ ODict d :: post) ->
  Forall spoken_segment pre ->
  d !! "text" = Some (VStr t) ->
  blank t ->
  Forall str_segment post ->
  exists st' e evs,
    translate_segments ollama self segments cb st
    = (st', Raise (ExnFrom RuntimeError (ExnFrom RuntimeError e)))
    /\ trace st' = trace st ++ evs
    /\ (length (engine_calls evs) <= length pre)%nat
    /\ (pre = [] -> e = Exn ValueError /\ evs = [])
    /\ (answers ollama ->
        e = Exn ValueError /\ length (engine_calls evs) = length pre).
Proof.
  intros Hon Hsegs Hpre Ht Hb Hpost.
  assert (Hall : Forall str_segment (pre ++ ODict d :: post)).
  { apply Forall_app. split.
    - eapply Forall_impl; [exact Hpre|]. intros x (dx & tx & -> & Htx & _).
      exists dx, tx. auto.
    - constructor; [|exact Hpost]. exists d, t. auto. }
  set (st1 := {| trace := trace st; heap := heap st ++ [[]] |}).
  destruct (context_prompt_ok _ st1 Hall) as [ss Hss].
  destruct (translate_loop_blank self (length (pre ++ ODict d :: post))
              (context_intro ++ join separator ss) (length (heap st)) cb
              pre d t post Hon Hpre Ht Hb 0%nat st1)
    as (st' & e & evs & Hl & Htr & Hlen & H0 & Ha).
  exists st', e, evs. split; [|auto].
  unfold translate_segments.
  rewrite (bind_eq _ _ st st (pre ++ ODict d :: post))
    by (unfold list_get; now rewrite Hsegs).
  destruct (pre ++ ODict d :: post) as [|s0 rest] eqn:Es.
  { destruct pre; discriminate. }
  rewrite <- Es in *.
  erewrite try_except_raise; [reflexivity|].
  rewrite (bind_eq _ _ st st1 (length (heap st))) by reflexivity.
  rewrite Hon.
  erewrite bind_eq by exact Hss.
  erewrite bind_raise by exact Hl. reflexivity.
Qed.

End TranslationFacts.

(** ** Translation: the contracts *)

Lemma translated_segment_dom start end_ original translated :
  dom (translated_segment start end_ original translated)
  = {["start"; "end"; "original"; "translated"]}.
Proof.
  unfold translated_segment. rewrite !dom_insert_L, dom_empty_L. set_solver.
Qed.

Lemma translated_from_rebuilt self segment new :
  translated_from self segment new -> rebuilt_from segment new.
Proof.
  intros (d & text & start & end_ & tr & -> & Ht & Hs & He & -> & _).
  exists d, (translated_segment start end_ text tr), text.
  rewrite Hs, He. repeat split; eauto using translated_segment_dom.
Qed.

Lemma translated_from_copied self segment new :
  local_model_on self = false ->
  translated_from self segment new -> copied_from segment new.
Proof.
  intros Hoff (d & text & start & end_ & tr & -> & Ht & Hs & He & -> & Htr).
  specialize (Htr Hoff). subst tr.
  exists d, (translated_segment start end_ text text).
  rewrite Ht. repeat split; eauto.
Qed.

(** C1, as the code has it: a successful [translate_segments] run returns a
    list object that did not exist before and leaves every existing list,
    the argument included, as it was; the new list has one [dict] for each
    segment, in the same order, with [start] and [end] copied, [original]
    equal to the text before translation and a [translated] field; the new
    [dict] has exactly these four keys, so [text] is not carried over. *)
Theorem translate_segments_builds_new_store
    (ollama : list event -> list pystr -> result pystr)
    (self : Translator) (segments : loc) (cb : bool) (st st' : state) (r : loc) :
  translate_segments ollama self segments cb st = (st', Ok r) ->
  exists segs out,
    heap st !! segments = Some segs
    /\ segs <> []
    /\ heap st !! r = None
    /\ r <> segments
    /\ (forall l, is_Some (heap st !! l) -> heap st' !! l = heap st !! l)
    /\ heap st' !! r = Some out
    /\ Forall2 rebuilt_from segs out.
Proof.
  intros H.
  apply translate_segments_ok in H
    as (segs & news & evs & Hsegs & Hne & -> & Hh & Hnews & _).
  exists segs, news. rewrite Hh.
  split; [exact Hsegs|]. split; [exact Hne|].
  split; [apply lookup_ge_None; lia|].
  split; [apply lookup_lt_Some in Hsegs; lia|].
  split.
  { intros l [x Hl]. apply lookup_app_l. now apply lookup_lt_Some in Hl. }
  split.
  { rewrite lookup_app_r by lia. now rewrite Nat.sub_diag. }
  eapply Forall2_impl; [exact Hnews|]. intros s o. apply translated_from_rebuilt.
Qed.

Lemma translate_segments_builds_new_store_witness :
  exists segs out,
    heap (store_of [hello]) !! 0%nat = Some segs
    /\ segs <> []
    /\ heap (store_of [hello]) !! 1%nat = None
    /\ 1%nat <> 0%nat
    /\ (forall l, is_Some (heap (store_of [hello]) !! l) ->
          heap (translate_segments no_engine translator_off 0%nat false
                  (store_of [hello])).1 !! l
          = heap (store_of [hello]) !! l)
    /\ heap (translate_segments no_engine translator_off 0%nat false
               (store_of [hello])).1 !! 1%nat = Some out
    /\ Forall2 rebuilt_from segs out.
Proof.
  apply (translate_segments_builds_new_store no_engine translator_off 0%nat false
           (store_of [hello])).
  vm_compute. reflexivity.
Defined.

(** C1 as stated fails: on the store [[{start:0.0, end:2.5, text:"Hello"}]]
    the result is another list than the argument, the argument still has
    no [original] field, and the new segment has no [text]. *)
Lemma translate_segments_not_in_place :
  (exists st' d',
     translate_segments no_engine translator_off 0%nat false (store_of [hello])
     = (st', Ok 1%nat)
     /\ heap st' !! 0%nat = Some [hello]
     /\ heap st' !! 1%nat = Some [ODict d']
     /\ d' !! "text" = None)
  /\ ~ in_place_contract no_engine translator_off 0%nat false (store_of [hello]).
Proof.
  split.
  - eexists _, _. split; [vm_compute; reflexivity|].
    split; [reflexivity|]. split; [reflexivity|]. reflexivity.
  - intros H.
    destruct (H (translate_segments no_engine translator_off 0%nat false
                   (store_of [hello])).1 1%nat) as [E _].
    + vm_compute. reflexivity.
    + discriminate.
Qed.

(** C4, as the code has it: with the local model on, a store of [dict]s
    with [str] texts whose first blank text is preceded by complete
    segments with non-blank texts fails with a [RuntimeError] raised from a
    [RuntimeError]; the engine was invoked at most once for each segment
    before the blank one and not for the blank one or a later one.  When
    the blank segment is the first, the innermost exception is the
    [ValueError] of the blank text and the engine was not invoked at all;
    the same exception, after exactly one invocation for each earlier
    segment, when the engine answers every request. *)
Theorem blank_text_fails_when_reached
    (ollama : list event -> list pystr -> result pystr)
    (self : Translator) (segments : loc) (cb : bool) (st : state)
    (pre post : list pyobj) (d : gmap string value) (t : pystr) :
  local_model_on self = true ->
  heap st !! segments = Some (pre ++ ODict d :: post) ->
  Forall spoken_segment pre ->
  d !! "text" = Some (VStr t) ->
  blank t ->
  Forall str_segment post ->
  exists st' e,
    translate_segments ollama self segments cb st
    = (st', Raise (ExnFrom RuntimeError (ExnFrom RuntimeError e)))
    /\ (length (engine_calls (new_events st st')) <= length pre)%nat
    /\ (pre = [] ->
        e = Exn ValueError /\ engine_calls (new_events st st') = [])
    /\ (answers ollama ->
        e = Exn ValueError
        /\ length (engine_calls (new_events st st')) = length pre).
Proof.
  intros Hon Hsegs Hpre Ht Hb Hpost.
  destruct (translate_segments_blank ollama self segments cb st pre d t post
              Hon Hsegs Hpre Ht Hb Hpost)
    as (st' & e & evs & Hrun & Htr & Hlen & H0 & Ha).
  exists st', e. rewrite (new_events_app st st' evs Htr).
  split; [exact Hrun|]. split; [exact Hlen|]. split.
  - intros Hp. destruct (H0 Hp) as [-> ->]. split; reflexivity.
  - exact Ha.
Qed.

Lemma hello_spoken : spoken_segment hello.
Proof.
  exists (segment_dict hello_raw), (lit "Hello").
  split; [reflexivity|]. split; [reflexivity|].
  split; [unfold blank; vm_compute; discriminate|].
  split; eexists; reflexivity.
Qed.

Lemma silence_blank : blank (strip (lit "  ")).
Proof. reflexivity. Qed.

Lemma blank_text_fails_when_reached_witness :
  exists st' e,
    translate_segments canned_engine translator_on 0%nat true
      (store_of [hello; silence])
    = (st', Raise (ExnFrom RuntimeError (ExnFrom RuntimeError e)))
    /\ (length (engine_calls (new_events (store_of [hello; silence]) st'))
        <= length [hello])%nat
    /\ ([hello] = [] ->
        e = Exn ValueError
        /\ engine_calls (new_events (store_of [hello; silence]) st') = [])
    /\ (answers canned_engine ->
        e = Exn ValueError
        /\ length (engine_calls (new_events (store_of [hello; silence]) st'))
           = length [hello]).
Proof.
  apply (blank_text_fails_when_reached canned_engine translator_on 0%nat true
           (store_of [hello; silence]) [hello] []
           (segment_dict silence_raw) (strip (lit "  "))).
  - reflexivity.
  - reflexivity.
  - constructor; [exact hello_spoken | constructor].
  - reflexivity.
  - exact silence_blank.
  - constructor.
Defined.

(** C4 as stated fails: on [[{text:"Hello"}, {text:"  "}]] the engine is
    invoked once, for the first segment, before the store fails. *)
Lemma blank_second_segment_reaches_engine :
  (exists st' e,
     translate_segments canned_engine translator_on 0%nat false
       (store_of [hello; silence]) = (st', Raise e)
     /\ length (engine_calls (new_events (store_of [hello; silence]) st')) = 1%nat)
  /\ ~ fails_before_engine canned_engine translator_on 0%nat false
         (store_of [hello; silence]).
Proof.
  split.
  - eexists _, _. split; [vm_compute; reflexivity|]. vm_compute. reflexivity.
  - intros (st' & e & Hrun & _ & Hcalls).
    assert (Hst : st' = (translate_segments canned_engine translator_on 0%nat false
                           (store_of [hello; silence])).1) by (now rewrite Hrun).
    rewrite Hst in Hcalls. vm_compute in Hcalls. discriminate.
Qed.

(** C5, as the code has it: cleaning a cleaned response again changes
    nothing when the cleaned response does not end in a punctuation mark
    of the allow-list. *)
Theorem sanitize_idempotent_without_final_punct (s : pystr) :
  ends_in_punct (sanitize s) = false ->
  sanitize (sanitize s) = sanitize s.
Proof.
  intros H. rewrite sanitize_twice. unfold drop_final_punct.
  rewrite H. now rewrite andb_false_r.
Qed.

Lemma sanitize_idempotent_without_final_punct_witness :
  sanitize (sanitize (lit " Hello, world! ")) = sanitize (lit " Hello, world! ").
Proof.
  apply (sanitize_idempotent_without_final_punct (lit " Hello, world! ")).
  vm_compute. reflexivity.
Defined.

(** C5 as stated fails: a response that ends in an ellipsis written as two
    marks loses one mark at each cleaning. *)
Lemma sanitize_not_idempotent_on_ellipsis :
  ~ sanitize_idempotent_at (lit "等等……").
Proof. unfold sanitize_idempotent_at. vm_compute. discriminate. Qed.

(** C6, as the code has it: with the local model off or no model name
    given, translation of a non-empty store of segments that carry [text],
    [start] and [end] succeeds without any engine invocation, and every
    new segment has [translated] and [original] equal to the text. *)
Theorem translation_off_copies_text
    (ollama : list event -> list pystr -> result pystr)
    (self : Translator) (segments : loc) (cb : bool) (st : state)
    (segs : list pyobj) :
  use_local_model self = false \/ name_given self = false ->
  heap st !! segments = Some segs ->
  segs <> [] ->
  Forall plain_segment segs ->
  exists st' r out,
    translate_segments ollama self segments cb st = (st', Ok r)
    /\ engine_calls (new_events st st') = []
    /\ heap st' !! r = Some out
    /\ Forall2 copied_from segs out.
Proof.
  intros Hoff Hsegs Hne Hplain. apply local_model_off in Hoff.
  destruct (translate_segments_off ollama self segments cb st segs Hoff Hsegs Hne Hplain)
    as (st' & r & Hrun).
  exists st', r.
  pose proof Hrun as Hok.
  apply translate_segments_ok in Hok
    as (segs' & news & evs & Hsegs' & _ & -> & Hh & Hnews & Htr & _ & He).
  assert (segs' = segs) by congruence. subst segs'.
  exists news. split; [exact Hrun|].
  split; [rewrite (new_events_app st st' evs Htr); now apply He|].
  split; [rewrite Hh, lookup_app_r by lia; now rewrite Nat.sub_diag|].
  eapply Forall2_impl; [exact Hnews|]. intros s o. now apply translated_from_copied.
Qed.

Lemma hello_plain : plain_segment hello.
Proof.
  exists (segment_dict hello_raw). split; [reflexivity|].
  repeat split; eexists; reflexivity.
Qed.

Lemma translation_off_copies_text_witness :
  exists st' r out,
    translate_segments no_engine translator_off 0%nat true (store_of [hello])
    = (st', Ok r)
    /\ engine_calls (new_events (store_of [hello]) st') = []
    /\ heap st' !! r = Some out
    /\ Forall2 copied_from [hello] out.
Proof.
  apply (translation_off_copies_text no_engine translator_off 0%nat true
           (store_of [hello]) [hello]).
  - left. reflexivity.
  - reflexivity.
  - discriminate.
  - constructor; [exact hello_plain | constructor].
Defined.

(** C6 as stated fails: the empty store is rejected with a [ValueError],
    also with the local model off. *)
Lemma translation_off_rejects_empty_store :
  translate_segments no_engine translator_off 0%nat false (store_of [])
  = (store_of [], Raise (Exn ValueError))
  /\ ~ translation_succeeds no_engine translator_off 0%nat false (store_of []).
Proof.
  split; [reflexivity|]. intros (st' & r & H). vm_compute in H. discriminate.
Qed.

(** ** [os.path.splitext] *)

Lemma rfind_from_app (c : N) (a b : pystr) : forall i f,
  rfind_from c (a ++ b) i f
  = rfind_from c b (i + Z.of_nat (length a)) (rfind_from c a i f).
Proof.
  induction a as [|x a IH]; intros i f; simpl.
  - now rewrite Z.add_0_r.
  - rewrite IH. f_equal. lia.
Qed.

Lemma rfind_from_absent (c : N) (p : pystr) : forall i f,
  forallb (fun x => negb (x =? c)%N) p = true ->
  rfind_from c p i f = f.
Proof.
  induction p as [|x p IH]; intros i f H; simpl in *; [reflexivity|].
  apply andb_true_iff in H as [Hx Hp].
  apply negb_true_iff in Hx. rewrite Hx. now apply IH.
Qed.

Lemma rfind_from_bound (c : N) (p : pystr) : forall i f,
  f < i -> rfind_from c p i f < i + Z.of_nat (length p).
Proof.
  induction p as [|x p IH]; intros i f H; simpl rfind_from.
  - simpl. lia.
  - replace (i + Z.of_nat (length (x :: p)))
      with ((i + 1) + Z.of_nat (length p)) by (simpl; lia).
    apply IH. destruct (x =? c)%N; lia.
Qed.

Lemma rfind_last (c : N) (d : pystr) :
  rfind c (d ++ [c]) = Z.of_nat (length d).
Proof.
  unfold rfind. rewrite rfind_from_app. simpl. now rewrite N.eqb_refl.
Qed.

Lemma rfind_bound (c : N) (p : pystr) : rfind c p < Z.of_nat (length p).
Proof. unfold rfind. apply (rfind_from_bound c p 0 (-1)). lia. Qed.

(** The last separator of the directory part. *)
Lemma sep_index_dir (os : os_flavour) (dir : pystr) :
  (dir = [] \/ exists d c, dir = d ++ [c] /\ is_sep os c = true) ->
  match os with
  | Posix => rfind 47 dir
  | NT => Z.max (rfind 92 dir) (rfind 47 dir)
  end = Z.of_nat (length dir) - 1.
Proof.
  intros [->|(d & c & -> & Hc)].
  - destruct os; reflexivity.
  - rewrite length_app. simpl length.
    destruct os; simpl in Hc.
    + apply N.eqb_eq in Hc. subst c. rewrite rfind_last. lia.
    + pose proof (rfind_bound 92 (d ++ [c])) as H1.
      pose proof (rfind_bound 47 (d ++ [c])) as H2.
      rewrite length_app in H1, H2. simpl length in H1, H2.
      apply orb_true_iff in Hc as [Hc|Hc]; apply N.eqb_eq in Hc; subst c;
        rewrite rfind_last in *; lia.
Qed.

Lemma rfind_past (c : N) (dir rest : pystr) :
  forallb (fun x => negb (x =? c)%N) rest = true ->
  rfind c (dir ++ rest) = rfind c dir.
Proof.
  intros H. unfold rfind. rewrite rfind_from_app. now apply rfind_from_absent.
Qed.

Lemma no_sep_absent (os : os_flavour) (c : N) (p : pystr) :
  is_sep os c = true ->
  forallb (fun x => negb (is_sep os x)) p = true ->
  forallb (fun x => negb (x =? c)%N) p = true.
Proof.
  intros Hc H. apply forallb_forall. intros x Hx.
  apply (proj1 (forallb_forall _ _) H) in Hx.
  apply negb_true_iff. apply negb_true_iff in Hx.
  destruct (N.eqb_spec x c) as [->|]; [congruence | reflexivity].
Qed.

(** [splitext] on a path with an extension splits at the dot of the
    extension. *)
Lemma splitext_parts (os : os_flavour) (dir name ext : pystr) :
  path_parts os dir name ext ->
  splitext os (dir ++ name ++ 46%N :: ext) = (dir ++ name, 46%N :: ext).
Proof.
  intros (Hdir & Hname & Hdots & Hext).
  assert (Hext_sep : forallb (fun x => negb (is_sep os x)) ext = true).
  { apply forallb_forall. intros x Hx.
    apply (proj1 (forallb_forall _ _) Hext) in Hx.
    now apply andb_true_iff in Hx as [Hx _]. }
  assert (Hext_dot : forallb (fun x => negb (x =? 46)%N) ext = true).
  { apply forallb_forall. intros x Hx.
    apply (proj1 (forallb_forall _ _) Hext) in Hx.
    now apply andb_true_iff in Hx as [_ Hx]. }
  assert (Hrest : forall c, is_sep os c = true ->
            forallb (fun x => negb (x =? c)%N) (name ++ 46%N :: ext) = true).
  { intros c Hc. rewrite forallb_app. cbn [forallb].
    rewrite (no_sep_absent os c name Hc Hname), (no_sep_absent os c ext Hc Hext_sep).
    destruct (N.eqb_spec 46 c) as [<-|]; [|reflexivity].
    destruct os; discriminate. }
  assert (Hsep :
    match os with
    | Posix => rfind 47 (dir ++ name ++ 46%N :: ext)
    | NT => Z.max (rfind 92 (dir ++ name ++ 46%N :: ext))
                  (rfind 47 (dir ++ name ++ 46%N :: ext))
    end = Z.of_nat (length dir) - 1).
  { rewrite <- (sep_index_dir os dir Hdir).
    destruct os; rewrite ?rfind_past by (apply Hrest; reflexivity); reflexivity. }
  assert (Hdot : rfind 46 (dir ++ name ++ 46%N :: ext)
                 = Z.of_nat (length dir + length name)).
  { unfold rfind. rewrite app_assoc, rfind_from_app. simpl.
    rewrite rfind_from_absent by exact Hext_dot.
    rewrite length_app. lia. }
  unfold splitext. rewrite Hsep, Hdot.
  replace (Z.of_nat (length dir) - 1 <? Z.of_nat (length dir + length name))
    with true by (symmetry; apply Z.ltb_lt; lia).
  replace (Z.to_nat (Z.of_nat (length dir) - 1 + 1)) with (length dir) by lia.
  replace (Z.to_nat (Z.of_nat (length dir + length name)
                     - (Z.of_nat (length dir) - 1 + 1)))
    with (length name) by lia.
  rewrite drop_app_length, take_app_length, Hdots. cbn [andb].
  rewrite Nat2Z.id, app_assoc, <- length_app.
  now rewrite take_app_length, drop_app_length.
Qed.

(** ** Writing subtitles *)

Section WritingFacts.

Variable float_repr : Q -> pystr.
Variable fs_open : pystr -> result unit.
Variable fs_write : list event -> pystr -> result unit.

Lemma writes_app (a b : list event) : writes (a ++ b) = writes a ++ writes b.
Proof. apply omap_app. Qed.

(** [_format_time] has no effect on the state. *)
Lemma format_time_pure v st st' r :
  _format_time v st = (st', r) -> st' = st.
Proof.
  unfold _format_time. destruct v as [s|s]; [|unfold raise; congruence].
  destruct (timedelta_of_seconds s); unfold raise, ret; congruence.
Qed.

Lemma item_pure segment k st st' r :
  item segment k st = (st', r) -> st' = st.
Proof.
  unfold item, subscript. destruct segment as [d|v]; [destruct (d !! k)|];
    unfold raise, ret; congruence.
Qed.

Lemma has_key_true d k : has_key (ODict d) k = true <-> is_Some (d !! k).
Proof. unfold has_key. apply bool_decide_eq_true. Qed.

(** A write that succeeds adds its data to the file; the data could be
    encoded. *)
Lemma write_ok data st st' :
  write fs_write data st = (st', Ok tt) ->
  encodable data
  /\ st' = {| trace := trace st ++ [EvWrite data]; heap := heap st |}.
Proof.
  unfold write, encodable. destruct (existsb is_surrogate data); [discriminate|].
  destruct (fs_write (trace st) data); [|discriminate].
  intros [= <-]. auto.
Qed.

(** An encodable text is written when the file accepts it. *)
Lemma write_run data st :
  encodable data ->
  fs_write (trace st) data = Ok tt ->
  write fs_write data st
  = ({| trace := trace st ++ [EvWrite data]; heap := heap st |}, Ok tt).
Proof. unfold write, encodable. intros -> ->. reflexivity. Qed.

(** The branch taken by [write_text] is the one the policy names. *)
Lemma write_text_policy self d st :
  write_text float_repr fs_write self (ODict d) st
  = match text_line_policy (use_translation self) d with
    | Some v => write fs_write (str_value float_repr v ++ lit "
") st
    | None => (st, Raise (Exn KeyError))
    end.
Proof.
  unfold write_text, text_line_policy, has_key, item, subscript.
  destruct (d !! "translated") as [t|] eqn:Et;
    destruct (d !! "original") as [o|] eqn:Eo;
    destruct (use_translation self); simpl;
    rewrite ?bool_decide_eq_true_2, ?bool_decide_eq_false_2
      by (rewrite ?Et, ?Eo; first [by eexists | by intros [? ?]]);
    rewrite ?Et, ?Eo; try reflexivity;
    destruct (d !! "text"); reflexivity.
Qed.

Lemma write_text_ok self segment st st' :
  write_text float_repr fs_write self segment st = (st', Ok tt) ->
  heap st' = heap st
  /\ exists line, trace st' = trace st ++ [EvWrite line].
Proof.
  destruct segment as [d|v].
  - rewrite write_text_policy.
    destruct (text_line_policy (use_translation self) d); [|discriminate].
    intros H. apply write_ok in H as [_ ->]. simpl. eauto.
  - unfold write_text, has_key, item. rewrite andb_false_r.
    unfold bind, raise. discriminate.
Qed.

(** One block of a successful run: four writes, then the report. *)
Lemma write_block_ok self cb i segment st st' :
  write_block float_repr fs_write self cb i segment st = (st', Ok tt) ->
  heap st' = heap st
  /\ exists timing line,
       trace st' = trace st
         ++ [EvWrite (str_int (Z.of_nat i + 1) ++ lit "
"); EvWrite timing; EvWrite line; EvWrite (lit "
")]
         ++ (if cb
             then [EvProgress (percent (Z.of_nat i + 1)
                                 (Z.of_nat (length (segments self))))]
             else []).
Proof.
  unfold write_block. intros H.
  apply bind_ok_inv in H as (s1 & [] & H1 & H).
  apply write_ok in H1 as [_ ->].
  apply bind_ok_inv in H as (s2 & vs & H2 & H).
  pose proof (item_pure _ _ _ _ _ H2) as ->.
  apply bind_ok_inv in H as (s3 & start & H3 & H).
  pose proof (format_time_pure _ _ _ _ H3) as ->.
  apply bind_ok_inv in H as (s4 & ve & H4 & H).
  pose proof (item_pure _ _ _ _ _ H4) as ->.
  apply bind_ok_inv in H as (s5 & end_ & H5 & H).
  pose proof (format_time_pure _ _ _ _ H5) as ->.
  apply bind_ok_inv in H as (s6 & [] & H6 & H).
  apply write_ok in H6 as [_ ->].
  apply bind_ok_inv in H as (s7 & [] & H7 & H).
  apply write_text_ok in H7 as [Hh7 [line Ht7]].
  apply bind_ok_inv in H as (s8 & [] & H8 & H).
  apply write_ok in H8 as [_ ->].
  simpl in *. split.
  - destruct cb; unfold report, emit, ret in H; simplify_eq; simpl; congruence.
  - eexists _, line.
    destruct cb; unfold report, emit, ret in H; simplify_eq; simpl;
      rewrite Ht7, <- ?app_assoc; simpl; rewrite ?app_nil_r; reflexivity.
Qed.

Lemma write_blocks_ok self cb segs : forall i st st',
  write_blocks float_repr fs_write self cb i segs st = (st', Ok tt) ->
  heap st' = heap st
  /\ exists evs,
       trace st' = trace st ++ evs
       /\ length (writes evs) = (4 * length segs)%nat
       /\ progress_values evs =
            (if cb
             then (fun j => percent (Z.of_nat j + 1)
                              (Z.of_nat (length (segments self))))
                    <$> seq i (length segs)
             else [])
       /\ (segs = [] -> evs = [])
       /\ (cb = true -> segs <> [] ->
           exists before,
             evs = before
                   ++ [EvProgress (percent (Z.of_nat (i + length segs))
                                     (Z.of_nat (length (segments self))))]).
Proof.
  induction segs as [|segment rest IH]; intros i st st' H; simpl in H.
  - unfold ret in H. simplify_eq. split; [reflexivity|].
    exists []. rewrite app_nil_r.
    repeat split; [now destruct cb | congruence].
  - apply bind_ok_inv in H as (s1 & [] & H1 & H2).
    apply write_block_ok in H1 as [Hh1 (timing & line & Ht1)].
    apply IH in H2 as [Hh2 (evs & Ht2 & Hw2 & Hp2 & Hn2 & Hl2)].
    split; [congruence|].
    eexists. split; [rewrite Ht2, Ht1, <- app_assoc; reflexivity|].
    split; [|split; [|split]].
    + rewrite !writes_app, !length_app, Hw2. simpl.
      destruct cb; simpl; lia.
    + rewrite !progress_values_app, Hp2. destruct cb; reflexivity.
    + discriminate.
    + intros -> _. destruct rest as [|s2 rest'].
      * rewrite (Hn2 eq_refl), app_nil_r. simpl.
        replace (Z.of_nat (i + 1)) with (Z.of_nat i + 1) by lia.
        eexists [_; _; _; _]. reflexivity.
      * destruct (Hl2 eq_refl) as [before Hb]; [discriminate|].
        rewrite Hb. eexists. rewrite !app_assoc.
        replace (i + length (segment :: s2 :: rest'))%nat
          with (S i + length (s2 :: rest'))%nat by (simpl; lia).
        reflexivity.
Qed.

Lemma generate_srt_ok os self cb st st' path :
  generate_srt float_repr fs_open fs_write os self cb st = (st', Ok path) ->
  path = (splitext os (output_path self)).1 ++ lit ".srt"
  /\ heap st' = heap st
  /\ exists evs,
       trace st' = trace st ++ EvOpen path :: evs
       /\ length (writes evs) = (4 * length (segments self))%nat
       /\ progress_values evs =
            (if cb then count_progress (length (segments self)) else [])
       /\ (cb = true -> segments self <> [] ->
           exists before, evs = before ++ [EvProgress 100]).
Proof.
  unfold generate_srt. intros H.
  apply bind_ok_inv in H as (s1 & [] & H1 & H).
  unfold open_w in H1.
  apply bind_ok_inv in H as (s2 & [] & H2 & H).
  unfold ret in H. simplify_eq.
  apply write_blocks_ok in H2 as [Hh (evs & Ht & Hw & Hp & _ & Hl)].
  simpl in *. repeat split; [exact Hh|].
  exists evs. split; [rewrite Ht, <- app_assoc; reflexivity|].
  split; [exact Hw|]. split; [exact Hp|].
  intros Hcb Hne. destruct (Hl Hcb Hne) as [before ->]. exists before.
  simpl. rewrite percent_full; [reflexivity|].
  destruct (segments self); [congruence | simpl; lia].
Qed.

End WritingFacts.
(** ** Writing subtitles: the contracts *)

(** C2, what the code does at the specification's example: the hours are
    taken from [td.seconds], the seconds within the last day, so 90000
    seconds are written as one hour. *)
Theorem format_time_drops_whole_days (st : state) :
  _format_time (VFloat 90000) st = (st, Ok (lit "01:00:00,000")).
Proof. vm_compute. reflexivity. Qed.



Lemma hello_start (st : state) :
  item hello "start" st = (st, Ok (VFloat 0)).
Proof. reflexivity. Qed.

Lemma hello_end (st : state) :
  item hello "end" st = (st, Ok (VFloat (5 # 2))).
Proof. reflexivity. Qed.

Lemma format_time_zero (st : state) :
  _format_time (VFloat 0) st = (st, Ok (lit "00:00:00,000")).
Proof. vm_compute. reflexivity. Qed.

Lemma format_time_hello_end (st : state) :
  _format_time (VFloat (5 # 2)) st = (st, Ok (lit "00:00:02,500")).
Proof. vm_compute. reflexivity. Qed.

Lemma hello_text_line (use_translation : bool) :
  text_line_policy use_translation (segment_dict hello_raw)
  = Some (VStr (lit "Hello")).
Proof. destruct use_translation; vm_compute; reflexivity. Qed.

Lemma percent_one : percent (Z.of_nat 0 + 1) (Z.of_nat 1) = 100.
Proof. vm_compute. reflexivity. Qed.

(** The block written for the sample segment. *)
Lemma write_block_hello (float_repr : Q -> pystr)
    (fs_write : list event -> pystr -> result unit) (target : pystr)
    (flag cb : bool) (st : state) :
  reliable fs_write ->
  write_block float_repr fs_write (hello_writer target flag) cb 0 hello st
  = ({| trace :=
          ((((trace st ++ [EvWrite (lit "1
")])
             ++ [EvWrite (lit "00:00:00,000 --> 00:00:02,500
")])
            ++ [EvWrite (lit "Hello
")])
           ++ [EvWrite (lit "
")])
          ++ (if cb then [EvProgress 100] else []);
        heap := heap st |}, Ok tt).
Proof.
  intros Hrel. unfold write_block.
  erewrite bind_eq by (apply write_run; [reflexivity | apply Hrel]).
  erewrite bind_eq by apply hello_start.
  erewrite bind_eq by apply format_time_zero.
  erewrite bind_eq by apply hello_end.
  erewrite bind_eq by apply format_time_hello_end.
  erewrite bind_eq by (apply write_run; [reflexivity | apply Hrel]).
  erewrite bind_eq
    by (unfold hello, store_segment; rewrite write_text_policy;
        cbn [use_translation hello_writer]; rewrite hello_text_line;
        apply write_run; [reflexivity | apply Hrel]).
  erewrite bind_eq by (apply write_run; [reflexivity | apply Hrel]).
  cbn [segments hello_writer length]. rewrite percent_one.
  destruct cb; cbn [report]; unfold emit, ret; cbn [trace heap];
    rewrite ?app_nil_r; reflexivity.
Qed.

(** C8: for the store [[{start:0.0, end:2.5, text:"Hello"}]] and an
    output path [dir ++ name ++ "." ++ ext] with an extension, whatever
    the flag, when the file can be opened and written [generate_srt]
    opens [dir ++ name ++ ".srt"], the output path with its extension
    replaced by [.srt], writes the four lines of the block to it and
    returns that path. *)
Theorem generate_srt_hello (float_repr : Q -> pystr)
    (fs_open : pystr -> result unit)
    (fs_write : list event -> pystr -> result unit)
    (os : os_flavour) (dir name ext : pystr) (flag cb : bool) (st : state) :
  path_parts os dir name ext ->
  fs_open (dir ++ name ++ lit ".srt") = Ok tt ->
  reliable fs_write ->
  exists st',
    generate_srt float_repr fs_open fs_write os
      (hello_writer (dir ++ name ++ lit "." ++ ext) flag) cb st
    = (st', Ok (dir ++ name ++ lit ".srt"))
    /\ new_events st st'
       = [EvOpen (dir ++ name ++ lit ".srt");
          EvWrite (lit "1
");
          EvWrite (lit "00:00:00,000 --> 00:00:02,500
");
          EvWrite (lit "Hello
");
          EvWrite (lit "
")]
         ++ (if cb then [EvProgress 100] else []).
Proof.
  intros Hparts Hopen Hrel.
  unfold generate_srt. cbn [output_path segments hello_writer].
  change (lit "." ++ ext) with (46%N :: ext).
  rewrite (splitext_parts os dir name ext Hparts). cbn [fst].
  rewrite <- app_assoc.
  revert Hopen. generalize (dir ++ name ++ lit ".srt"). intros path Hopen.
  eexists. split.
  - erewrite bind_eq by (unfold open_w; rewrite Hopen; reflexivity).
    cbn [write_blocks].
    erewrite bind_eq.
    2:{ erewrite bind_eq by (apply write_block_hello; exact Hrel). reflexivity. }
    reflexivity.
  - apply new_events_app. cbn [trace].
    rewrite <- !app_assoc. f_equal.
Qed.

Lemma talk_parts : path_parts Posix (lit "/videos/") (lit "talk") (lit "mp4").
Proof.
  split; [right; exists (lit "/videos"), 47%N; split; reflexivity|].
  repeat split; reflexivity.
Qed.

Lemma generate_srt_hello_witness :
  exists st',
    generate_srt no_float_repr always_opens always_writes Posix
      (hello_writer (lit "/videos/talk.mp4") false) true init_state
    = (st', Ok (lit "/videos/talk.srt"))
    /\ new_events init_state st'
       = [EvOpen (lit "/videos/talk.srt");
          EvWrite (lit "1
");
          EvWrite (lit "00:00:00,000 --> 00:00:02,500
");
          EvWrite (lit "Hello
");
          EvWrite (lit "
");
          EvProgress 100].
Proof.
  exact (generate_srt_hello no_float_repr always_opens always_writes Posix
           (lit "/videos/") (lit "talk") (lit "mp4") false true init_state
           talk_parts eq_refl (fun _ _ => eq_refl)).
Defined.

(** ** Transcription *)

Lemma progress_values_reports (ps : list Z) :
  progress_values (EvProgress <$> ps) = ps.
Proof.
  unfold progress_values. induction ps as [|p ps IH]; simpl; [reflexivity|].
  f_equal. exact IH.
Qed.

Lemma existsb_app_false {A} (f : A -> bool) (a b : list A) :
  existsb f a = false -> existsb f b = false -> existsb f (a ++ b) = false.
Proof. intros Ha Hb. now rewrite existsb_app, Ha, Hb. Qed.

Lemma reports_not_faster (ps : list Z) :
  existsb faster_event (EvProgress <$> ps) = false.
Proof. induction ps; [reflexivity | exact IHps]. Qed.


Section TranscriptionFacts.

Variable path_exists : pystr -> bool.
Variable whisper_importable : bool.
Variable whisper_load_model : pystr -> pystr -> result unit.
Variable whisper_transcribe : pystr -> bool -> result (list raw_segment).
Variable faster_load : option pystr -> pystr -> pystr -> result unit.
Variable faster_transcribe : pystr -> result (lazy_segments * Q).

(** The loop of variant A cannot fail: it stores every segment and
    reports after each. *)
Lemma whisper_loop_run cb total raw : forall i acc st,
  whisper_loop cb total i raw acc st
  = ({| trace := trace st
          ++ (if cb
              then EvProgress
                     <$> ((fun j => percent (Z.of_nat j + 1) (Z.of_nat total))
                            <$> seq i (length raw))
              else []);
        heap := heap st |},
     Ok (acc ++ (store_segment <$> raw))).
Proof.
  induction raw as [|segment rest IH]; intros i acc st; simpl.
  - unfold ret. destruct st, cb; simpl; rewrite !app_nil_r; reflexivity.
  - unfold bind, report. destruct cb; unfold emit, ret; rewrite IH; simpl;
      rewrite <- !app_assoc; reflexivity.
Qed.

Lemma transcribe_with_whisper_ok self audio_path cb st st' segs :
  transcribe_with_whisper path_exists whisper_importable whisper_load_model
    whisper_transcribe self audio_path cb st = (st', Ok segs) ->
  exists raw fp16,
    path_exists audio_path = true
    /\ whisper_importable = true
    /\ whisper_transcribe audio_path fp16 = Ok raw
    /\ segs = store_segment <$> raw
    /\ heap st' = heap st
    /\ trace st' = trace st
         ++ [EvWhisperLoad (lit "base") (device self);
             EvWhisperTranscribe audio_path fp16]
         ++ (if cb then EvProgress <$> count_progress (length raw) else []).
Proof.
  unfold transcribe_with_whisper. intros H.
  destruct (path_exists audio_path) eqn:Hp; simpl in H; [|discriminate].
  unfold try_except in H.
  match type of H with
  | (match ?m st with _ => _ end) = _ => destruct (m st) as [s2 [r2|e]] eqn:Hm
  end; [|discriminate].
  simplify_eq.
  apply bind_ok_inv in Hm as (s1 & [] & H1 & Hm).
  destruct whisper_importable; [|discriminate]. unfold ret in H1. simplify_eq.
  apply bind_ok_inv in Hm as (s2 & [] & H2 & Hm).
  unfold call in H2. simplify_eq.
  apply bind_ok_inv in Hm as (s3 & raw & H3 & Hm).
  unfold call in H3. simplify_eq.
  rewrite whisper_loop_run in Hm. simplify_eq.
  eexists raw, _. repeat split; try eassumption; simpl.
  rewrite <- !app_assoc. reflexivity.
Qed.

(** Variant A never touches variant B's engine, whatever happens. *)
Lemma transcribe_with_whisper_events self audio_path cb st :
  exists evs,
    trace (transcribe_with_whisper path_exists whisper_importable
             whisper_load_model whisper_transcribe self audio_path cb st).1
    = trace st ++ evs
    /\ existsb faster_event evs = false.
Proof.
  unfold transcribe_with_whisper.
  destruct (path_exists audio_path); cbn [negb];
    [|exists []; rewrite app_nil_r; split; reflexivity].
  unfold try_except, bind, call, ret, raise.
  destruct whisper_importable; cbv beta iota;
    [|exists []; rewrite app_nil_r; split; reflexivity].
  destruct (whisper_load_model (lit "base") (device self)); cbv beta iota;
    [|eexists [_]; split; reflexivity].
  match goal with
  | |- context [whisper_transcribe audio_path ?b] =>
      destruct (whisper_transcribe audio_path b) as [raw|e]
  end; cbv beta iota.
  - rewrite whisper_loop_run. cbn [fst trace]. eexists.
    rewrite <- !app_assoc. split; [reflexivity|].
    cbn [app existsb faster_event orb].
    destruct cb; [apply reports_not_faster | reflexivity].
  - cbn [fst trace]. eexists. rewrite <- !app_assoc. split; reflexivity.
Qed.

Lemma faster_loop_ok cb total_duration failure raw : forall acc st st' segs,
  faster_loop cb total_duration raw failure acc st = (st', Ok segs) ->
  failure = None
  /\ segs = acc ++ (store_segment <$> raw)
  /\ heap st' = heap st
  /\ trace st' = trace st
       ++ (if cb
           then EvProgress <$> (duration_percent_of total_duration <$> raw)
           else []).
Proof.
  induction raw as [|segment rest IH]; intros acc st st' segs H; simpl in H.
  - destruct failure; unfold ret, raise in H; simplify_eq.
    destruct cb; simpl; rewrite !app_nil_r; auto.
  - apply bind_ok_inv in H as (s1 & [] & H1 & H).
    apply IH in H as (Hf & -> & Hh & Ht).
    destruct cb.
    + apply bind_ok_inv in H1 as (s0 & p & H0 & H1).
      unfold duration_percent in H0. unfold emit in H1.
      destruct (Qeq_bool total_duration 0); unfold ret, raise in H0; simplify_eq.
      simpl in *. rewrite <- !app_assoc in *. simpl in *. auto.
    + unfold ret in H1. simplify_eq. rewrite <- app_assoc. auto.
Qed.

Lemma transcribe_with_faster_whisper_ok self audio_path cb st st' segs :
  transcribe_with_faster_whisper path_exists faster_load faster_transcribe
    self audio_path cb st = (st', Ok segs) ->
  exists raw total_duration,
    path_exists audio_path = true
    /\ faster_transcribe audio_path
       = Ok ({| yielded := raw; failure := None |}, total_duration)
    /\ segs = store_segment <$> raw
    /\ heap st' = heap st
    /\ trace st' = trace st
         ++ [EvFasterLoad (default [] (model_path self)) (device self)
               (compute_type self);
             EvFasterTranscribe audio_path 5]
         ++ (if cb
             then EvProgress <$> (duration_percent_of total_duration <$> raw)
             else []).
Proof.
  unfold transcribe_with_faster_whisper. intros H.
  destruct (path_exists audio_path) eqn:Hp; simpl in H; [|discriminate].
  unfold try_except in H.
  match type of H with
  | (match ?m st with _ => _ end) = _ => destruct (m st) as [s2 [r2|e]] eqn:Hm
  end; [|discriminate].
  simplify_eq.
  apply bind_ok_inv in Hm as (s1 & [] & H1 & Hm).
  unfold call in H1. simplify_eq.
  apply bind_ok_inv in Hm as (s2 & [[raw fail] dur] & H2 & Hm).
  unfold call in H2. simplify_eq.
  apply faster_loop_ok in Hm as (Hf & -> & Hh & Ht). simpl in *. subst fail.
  exists raw, dur. repeat split; try assumption.
  rewrite <- !app_assoc in Ht. exact Ht.
Qed.

End TranscriptionFacts.

(** ** Transcription: the contracts *)




(** C10: when [use_faster_whisper] is off or no model path is given (also
    with [use_faster_whisper] on), [transcribe] is variant A and variant
    B's engine is not touched; with both it is variant B. *)
Theorem transcribe_falls_back_to_whisper
    (path_exists : pystr -> bool) (whisper_importable : bool)
    (whisper_load_model : pystr -> pystr -> result unit)
    (whisper_transcribe : pystr -> bool -> result (list raw_segment))
    (faster_load : option pystr -> pystr -> pystr -> result unit)
    (faster_transcribe : pystr -> result (lazy_segments * Q))
    (self : AudioTranscriber) (audio_path : pystr) (cb : bool) (st : state) :
  (use_faster_whisper self = false \/ path_given self = false ->
   transcribe path_exists whisper_importable whisper_load_model
     whisper_transcribe faster_load faster_transcribe self audio_path cb st
   = transcribe_with_whisper path_exists whisper_importable whisper_load_model
       whisper_transcribe self audio_path cb st
   /\ existsb faster_event
        (new_events st
           (transcribe path_exists whisper_importable whisper_load_model
              whisper_transcribe faster_load faster_transcribe self audio_path
              cb st).1) = false)
  /\ (use_faster_whisper self = true -> path_given self = true ->
      transcribe path_exists whisper_importable whisper_load_model
        whisper_transcribe faster_load faster_transcribe self audio_path cb st
      = transcribe_with_faster_whisper path_exists faster_load
          faster_transcribe self audio_path cb st).
Proof.
  split.
  - intros Hoff.
    assert (E : use_faster_whisper self && path_given self = false).
    { destruct Hoff as [H|H]; rewrite H; [reflexivity | apply andb_false_r]. }
    unfold transcribe. rewrite E. split; [reflexivity|].
    destruct (transcribe_with_whisper_events path_exists whisper_importable
                whisper_load_model whisper_transcribe self audio_path cb st)
      as (evs & Ht & He).
    now rewrite (new_events_app _ _ _ Ht).
  - intros H1 H2. unfold transcribe. now rewrite H1, H2.
Qed.

Lemma transcribe_falls_back_to_whisper_witness :
  transcribe any_path true whisper_loads whisper_hello faster_loads faster_hello
    cpu_faster_no_path (lit "talk.wav") true init_state
  = transcribe_with_whisper any_path true whisper_loads whisper_hello
      cpu_faster_no_path (lit "talk.wav") true init_state
  /\ existsb faster_event
       (new_events init_state
          (transcribe any_path true whisper_loads whisper_hello faster_loads
             faster_hello cpu_faster_no_path (lit "talk.wav") true
             init_state).1) = false.
Proof.
  apply (proj1 (transcribe_falls_back_to_whisper any_path true whisper_loads
                  whisper_hello faster_loads faster_hello cpu_faster_no_path
                  (lit "talk.wav") true init_state)).
  right. reflexivity.
Defined.

(** ** Further properties of translation *)

Lemma blank_dec (s : pystr) : {blank s} + {~ blank s}.
Proof. unfold blank. destruct (strip s); [left | right]; congruence. Qed.

Lemma truthy_strip (s : pystr) : ~ blank s -> truthy (strip s) = true.
Proof. unfold blank. destruct (strip s); [congruence | reflexivity]. Qed.

(** The exact outcome of a request for a non-blank text under a model
    name. *)
Lemma translate_with_ollama_run ollama self ctx t name st :
  ~ blank t ->
  model_name self = Some name ->
  truthy name = true ->
  translate_with_ollama ollama self ctx (VStr t) st
  = ({| trace := trace st ++ [EvRun (request name ctx t)]; heap := heap st |},
     match ollama (trace st) (request name ctx t) with
     | Ok out =>
         if truthy (strip out) then Ok (sanitize out)
         else Raise (ExnFrom RuntimeError (Exn RuntimeError))
     | Raise e =>
         match exn_cls e with
         | CalledProcessError => Raise e
         | _ => Raise (ExnFrom RuntimeError e)
         end
     end).
Proof.
  intros Hnb Hname Htruthy.
  unfold translate_with_ollama. munfold.
  rewrite blank_test, (truthy_strip t Hnb), Hname, Htruthy. cbn [negb].
  unfold subprocess_run, request.
  destruct (ollama (trace st) _) as [out|e].
  - rewrite blank_test. destruct (truthy (strip out)); reflexivity.
  - destruct (exn_cls e); reflexivity.
Qed.

(** X1: [translate_with_ollama] validates before it calls the engine: a
    text that is empty or white space only raises [ValueError], and a
    non-blank text without a model name raises a bare [RuntimeError]; in
    both cases nothing was run. *)
Theorem translate_with_ollama_validates_first
    (ollama : list event -> list pystr -> result pystr)
    (self : Translator) (ctx t : pystr) (st : state) :
  (blank t ->
   translate_with_ollama ollama self ctx (VStr t) st
   = (st, Raise (Exn ValueError)))
  /\ (~ blank t -> name_given self = false ->
      translate_with_ollama ollama self ctx (VStr t) st
      = (st, Raise (Exn RuntimeError))).
Proof.
  split.
  - apply translate_with_ollama_blank.
  - intros Hnb Hname. unfold translate_with_ollama. munfold.
    rewrite blank_test, (truthy_strip t Hnb). cbn [negb].
    unfold name_given in Hname.
    destruct (model_name self) as [name|]; [|reflexivity].
    rewrite Hname. reflexivity.
Qed.

Lemma translate_with_ollama_validates_first_witness :
  translate_with_ollama canned_engine translator_unnamed [] (VStr (lit "Hello"))
    init_state
  = (init_state, Raise (Exn RuntimeError)).
Proof.
  apply (proj2 (translate_with_ollama_validates_first canned_engine
                  translator_unnamed [] (lit "Hello") init_state)).
  - unfold blank. vm_compute. discriminate.
  - reflexivity.
Defined.

(** X2: when the engine process fails, a [CalledProcessError] reaches the
    caller of [translate_with_ollama] as it is, and every other exception
    as the cause of a [RuntimeError]; the engine was run once. *)
Theorem engine_failure_kinds
    (ollama : list event -> list pystr -> result pystr)
    (self : Translator) (ctx t name : pystr) (st : state) (e : exn) :
  ~ blank t ->
  model_name self = Some name ->
  truthy name = true ->
  ollama (trace st) (request name ctx t) = Raise e ->
  translate_with_ollama ollama self ctx (VStr t) st
  = ({| trace := trace st ++ [EvRun (request name ctx t)]; heap := heap st |},
     if is_called_process_error e
     then Raise e else Raise (ExnFrom RuntimeError e)).
Proof.
  intros Hnb Hname Htruthy He.
  rewrite (translate_with_ollama_run ollama self ctx t name st Hnb Hname Htruthy), He.
  unfold is_called_process_error. destruct (exn_cls e); reflexivity.
Qed.

Lemma engine_failure_kinds_witness :
  translate_with_ollama (failing_engine (Exn OSError)) translator_on []
    (VStr (lit "Hello")) init_state
  = ({| trace := trace init_state ++ [EvRun (request (lit "gemma") [] (lit "Hello"))];
        heap := heap init_state |},
     if is_called_process_error (Exn OSError)
     then Raise (Exn OSError) else Raise (ExnFrom RuntimeError (Exn OSError))).
Proof.
  apply (engine_failure_kinds (failing_engine (Exn OSError)) translator_on []
           (lit "Hello") (lit "gemma") init_state (Exn OSError)).
  - unfold blank. vm_compute. discriminate.
  - reflexivity.
  - reflexivity.
  - reflexivity.
Defined.

(** X3: an engine response that is empty or white space only is raised as
    a [RuntimeError] inside the [try] of [translate_with_ollama], so the
    caller gets a [RuntimeError] whose cause is that [RuntimeError]; a
    non-blank response is returned cleaned. *)
Theorem engine_response_outcomes
    (ollama : list event -> list pystr -> result pystr)
    (self : Translator) (ctx t name out : pystr) (st : state) :
  ~ blank t ->
  model_name self = Some name ->
  truthy name = true ->
  ollama (trace st) (request name ctx t) = Ok out ->
  translate_with_ollama ollama self ctx (VStr t) st
  = ({| trace := trace st ++ [EvRun (request name ctx t)]; heap := heap st |},
     if is_blank out
     then Raise (ExnFrom RuntimeError (Exn RuntimeError))
     else Ok (sanitize out)).
Proof.
  intros Hnb Hname Htruthy Ho.
  rewrite (translate_with_ollama_run ollama self ctx t name st Hnb Hname Htruthy), Ho.
  unfold is_blank. destruct (truthy (strip out)); reflexivity.
Qed.

Lemma engine_response_outcomes_witness :
  translate_with_ollama mute_engine translator_on [] (VStr (lit "Hello"))
    init_state
  = ({| trace := trace init_state ++ [EvRun (request (lit "gemma") [] (lit "Hello"))];
        heap := heap init_state |},
     if is_blank (lit " 
")
     then Raise (ExnFrom RuntimeError (Exn RuntimeError))
     else Ok (sanitize (lit " 
"))).
Proof.
  apply (engine_response_outcomes mute_engine translator_on []
           (lit "Hello") (lit "gemma") (lit " 
") init_state).
  - unfold blank. vm_compute. discriminate.
  - reflexivity.
  - reflexivity.
  - reflexivity.
Defined.

Lemma space_not_in_class (c : N) : is_space c = true -> in_class c = false.
Proof.
  intros H. destruct (in_class c) eqn:E; [|reflexivity].
  apply in_class_not_space in E. congruence.
Qed.

Lemma filter_lstrip (s : pystr) :
  List.filter in_class (lstrip s) = List.filter in_class s.
Proof.
  induction s as [|c r IH]; [reflexivity|]. simpl.
  destruct (is_space c) eqn:E; [|reflexivity].
  now rewrite (space_not_in_class c E).
Qed.

Lemma filter_strip (s : pystr) :
  List.filter in_class (strip s) = List.filter in_class s.
Proof.
  unfold strip, rstrip.
  rewrite filter_rev, filter_lstrip, filter_rev, rev_involutive.
  apply filter_lstrip.
Qed.

Lemma length_removelast_le {A} (l : list A) : (length (removelast l) <= length l)%nat.
Proof. induction l as [|x [|y l] IH]; simpl in *; lia. Qed.

(** X4: the clean-up keeps exactly the characters of the class
    (Chinese characters, Latin letters, digits, allow-list punctuation),
    in their order, and then drops one final punctuation mark: both
    [strip] calls are subsumed by the filter.  The result has no
    character outside the class and is never longer than the response. *)
Theorem sanitize_is_filter_then_drop (s : pystr) :
  sanitize s = drop_final_punct (List.filter in_class s)
  /\ class_only (sanitize s)
  /\ (length (sanitize s) <= length s)%nat.
Proof.
  assert (E : sanitize s = drop_final_punct (List.filter in_class s))
    by (rewrite sanitize_filter; now rewrite filter_strip).
  split; [exact E|]. split; [apply sanitize_class_only|].
  rewrite E. unfold drop_final_punct.
  pose proof (filter_length_le in_class s) as Hf.
  destruct (truthy _ && ends_in_punct _); [|exact Hf].
  pose proof (length_removelast_le (List.filter in_class s)). lia.
Qed.

Section MoreTranslationFacts.

Variable ollama : list event -> list pystr -> result pystr.

Lemma texts_of_pure segs : forall st st' (r : result (list value)),
  texts_of segs st = (st', r) -> st' = st.
Proof.
  induction segs as [|[d|v] rest IH]; simpl; intros st st' r H.
  - unfold ret in H. congruence.
  - unfold bind, subscript in H.
    destruct (d !! "text"); unfold ret, raise in H; [|congruence].
    destruct (texts_of rest st) as [s1 [ts|e]] eqn:E;
      apply IH in E; subst; congruence.
  - unfold raise in H. congruence.
Qed.

Lemma all_str_pure vs : forall st st' (r : result (list pystr)),
  all_str vs st = (st', r) -> st' = st.
Proof.
  induction vs as [|[x|s] rest IH]; simpl; intros st st' r H.
  - unfold ret in H. congruence.
  - unfold raise in H. congruence.
  - unfold bind in H. destruct (all_str rest st) as [s1 [ss|e]] eqn:E;
      apply IH in E; subst; unfold ret in H; congruence.
Qed.

(** One round changes no list but the one it appends to. *)
Lemma translate_one_frame self total ctx out cb i segment st st' r :
  translate_one ollama self total ctx out cb i segment st = (st', r) ->
  heap st' = heap st \/ exists x, heap st' = <[out := x]> (heap st).
Proof.
  unfold translate_one. munfold. intros H.
  destruct segment as [d|v]; [|simplify_eq; auto].
  destruct (d !! "text") as [text|]; [|simplify_eq; auto].
  destruct (local_model_on self).
  - destruct (translate_with_ollama ollama self ctx text st) as [s1 [t|e]] eqn:E;
      apply translate_with_ollama_frame in E as [Hh _]; [|simplify_eq; auto].
    destruct (d !! "start"); destruct (d !! "end"); destruct cb;
      unfold ret, raise, emit in H; simpl in H; simplify_eq; simpl;
      rewrite ?Hh; auto; right; eexists; reflexivity.
  - destruct (d !! "start"); destruct (d !! "end"); destruct cb;
      unfold ret, raise, emit in H; simpl in H; simplify_eq; simpl;
      auto; right; eexists; reflexivity.
Qed.

Lemma translate_loop_frame self total ctx out cb segs : forall i st st' r,
  translate_loop ollama self total ctx out cb i segs st = (st', r) ->
  forall l, l <> out -> heap st' !! l = heap st !! l.
Proof.
  induction segs as [|segment rest IH]; intros i st st' r H l Hl; simpl in H.
  - unfold ret in H. congruence.
  - unfold bind in H.
    destruct (translate_one ollama self total ctx out cb i segment st)
      as [s1 [[]|e]] eqn:E1;
      apply translate_one_frame in E1.
    + rewrite (IH _ _ _ _ H l Hl).
      destruct E1 as [->|[x ->]]; [reflexivity|].
      now apply list_lookup_insert_ne.
    + simplify_eq. destruct E1 as [->|[x ->]]; [reflexivity|].
      now apply list_lookup_insert_ne.
Qed.

Lemma translate_segments_frame self segments cb st st' r :
  translate_segments ollama self segments cb st = (st', r) ->
  forall l, is_Some (heap st !! l) -> heap st' !! l = heap st !! l.
Proof.
  unfold translate_segments, bind at 1, list_get. cbv beta iota.
  intros H l [x Hl]. pose proof (lookup_lt_Some _ _ _ Hl) as Hlt.
  destruct (default [] (heap st !! segments)) as [|s0 rest].
  { unfold raise in H. congruence. }
  unfold try_except, bind at 1, list_new in H. cbv beta iota in H.
  set (st1 := {| trace := trace st; heap := heap st ++ [[]] |}) in *.
  assert (H1 : heap st1 !! l = heap st !! l) by (simpl; now apply lookup_app_l).
  unfold bind at 1 in H.
  match type of H with
  | context [match ?c st1 with _ => _ end] => destruct (c st1) as [s2 [ctx|e]] eqn:Ec
  end.
  - assert (s2 = st1).
    { destruct (local_model_on self).
      - unfold bind in Ec.
        destruct (texts_of (s0 :: rest) st1) as [sa [ts|ea]] eqn:Ea;
          apply texts_of_pure in Ea; subst sa; [|congruence].
        destruct (all_str ts st1) as [sb [ss|eb]] eqn:Eb;
          apply all_str_pure in Eb; subst sb; unfold ret in Ec; congruence.
      - unfold ret in Ec. congruence. }
    subst s2. unfold bind in H.
    destruct (translate_loop ollama self (length (s0 :: rest)) ctx
                (length (heap st)) cb 0 (s0 :: rest) st1) as [s3 [[]|e]] eqn:El;
      pose proof (translate_loop_frame _ _ _ _ _ _ _ _ _ _ El l ltac:(lia)) as Hf;
      unfold ret, raise in H; simplify_eq; congruence.
  - assert (s2 = st1).
    { destruct (local_model_on self).
      - unfold bind in Ec.
        destruct (texts_of (s0 :: rest) st1) as [sa [ts|ea]] eqn:Ea;
          apply texts_of_pure in Ea; subst sa; [|congruence].
        destruct (all_str ts st1) as [sb [ss|eb]] eqn:Eb;
          apply all_str_pure in Eb; subst sb; unfold ret in Ec; congruence.
      - unfold ret in Ec. congruence. }
    subst s2. unfold raise in H. simplify_eq. congruence.
Qed.

End MoreTranslationFacts.

(** X5: whether it succeeds or fails, [translate_segments] leaves every
    list object that existed before the call as it was, its argument
    included: a failed translation does not damage the transcription. *)
Theorem translate_segments_preserves_lists
    (ollama : list event -> list pystr -> result pystr)
    (self : Translator) (segments : loc) (cb : bool) (st st' : state)
    (r : result loc) (l : loc) :
  translate_segments ollama self segments cb st = (st', r) ->
  is_Some (heap st !! l) ->
  heap st' !! l = heap st !! l.
Proof. intros H. now apply (translate_segments_frame ollama self segments cb st st' r). Qed.

Lemma translate_segments_preserves_lists_witness :
  heap (translate_segments canned_engine translator_on 0%nat true
          (store_of [hello; silence])).1 !! 0%nat
  = heap (store_of [hello; silence]) !! 0%nat.
Proof.
  apply (translate_segments_preserves_lists canned_engine translator_on 0%nat true
           (store_of [hello; silence]) _
           (translate_segments canned_engine translator_on 0%nat true
              (store_of [hello; silence])).2).
  - apply surjective_pairing.
  - eexists. reflexivity.
Defined.

Section RequestFacts.

Variable ollama : list event -> list pystr -> result pystr.

Lemma translate_with_ollama_ok_request self ctx text st st' t' :
  translate_with_ollama ollama self ctx text st = (st', Ok t') ->
  exists s name,
    text = VStr s /\ model_name self = Some name
    /\ st' = {| trace := trace st ++ [EvRun (request name ctx s)];
                heap := heap st |}.
Proof.
  intros H. destruct text as [x|s].
  { unfold translate_with_ollama in H. munfold.
    destruct (Qeq_bool x 0); discriminate. }
  destruct (blank_dec s) as [Hb|Hnb].
  { rewrite translate_with_ollama_blank in H by exact Hb. discriminate. }
  destruct (model_name self) as [name|] eqn:En.
  - destruct (truthy name) eqn:Et.
    + rewrite (translate_with_ollama_run ollama self ctx s name st Hnb En Et) in H.
      exists s, name. split; [reflexivity|]. split; [reflexivity|]. congruence.
    + unfold translate_with_ollama in H. munfold.
      rewrite blank_test, (truthy_strip s Hnb), En, Et in H. discriminate.
  - unfold translate_with_ollama in H. munfold.
    rewrite blank_test, (truthy_strip s Hnb), En in H. discriminate.
Qed.

Lemma translate_one_on_ok self total ctx out cb i segment st st' name :
  local_model_on self = true ->
  model_name self = Some name ->
  translate_one ollama self total ctx out cb i segment st = (st', Ok tt) ->
  exists s evs,
    has_text segment s
    /\ trace st' = trace st ++ evs
    /\ engine_calls evs = [request name ctx s].
Proof.
  intros Hon Hname. unfold translate_one. munfold. intros H.
  destruct segment as [d|v]; [|discriminate].
  destruct (d !! "text") as [text|] eqn:Ht; [|discriminate].
  rewrite Hon in H.
  destruct (translate_with_ollama ollama self ctx text st) as [s1 [t|e]] eqn:Ho;
    [|discriminate].
  apply translate_with_ollama_ok_request in Ho as (s & name' & -> & Hn' & ->).
  assert (name' = name) by congruence. subst name'.
  exists s. 
  destruct (d !! "start"); [|discriminate].
  destruct (d !! "end"); [|discriminate].
  destruct cb; unfold ret, emit in H; simpl in H; simplify_eq; simpl;
    eexists; (split; [exists d; auto|]);
    (split; [rewrite <- ?app_assoc; reflexivity | reflexivity]).
Qed.

Lemma translate_loop_on_ok self total ctx out cb name segs : forall i st st',
  local_model_on self = true ->
  model_name self = Some name ->
  translate_loop ollama self total ctx out cb i segs st = (st', Ok tt) ->
  exists ss evs,
    Forall2 has_text segs ss
    /\ trace st' = trace st ++ evs
    /\ engine_calls evs = request name ctx <$> ss.
Proof.
  induction segs as [|segment rest IH]; intros i st st' Hon Hname H; simpl in H.
  - unfold ret in H. simplify_eq. exists [], [].
    rewrite app_nil_r. repeat split. constructor.
  - apply bind_ok_inv in H as (s1 & [] & H1 & H2).
    apply (translate_one_on_ok _ _ _ _ _ _ _ _ _ name Hon Hname) in H1
      as (s & evs1 & Hs & Ht1 & He1).
    apply (IH _ _ _ Hon Hname) in H2 as (ss & evs2 & Hss & Ht2 & He2).
    exists (s :: ss), (evs1 ++ evs2).
    split; [now constructor|].
    split; [now rewrite Ht2, Ht1, app_assoc|].
    now rewrite engine_calls_app, He1, He2.
Qed.

Lemma texts_inv segs : forall st s1 s2 ts ss,
  texts_of segs st = (s1, Ok ts) ->
  all_str ts s1 = (s2, Ok ss) ->
  Forall2 has_text segs ss.
Proof.
  induction segs as [|[d|v] rest IH]; intros st s1 s2 ts ss H1 H2; simpl in H1.
  - unfold ret in H1. simplify_eq. simpl in H2. unfold ret in H2. simplify_eq.
    constructor.
  - apply bind_ok_inv in H1 as (sa & t & Ha & H1).
    apply bind_ok_inv in H1 as (sb & ts' & Hb & H1).
    unfold ret in H1. simplify_eq.
    unfold subscript in Ha. destruct (d !! "text") as [t0|] eqn:Et;
      unfold ret, raise in Ha; simplify_eq.
    simpl in H2. destruct t as [x|s]; [discriminate|].
    apply bind_ok_inv in H2 as (sc & ss' & Hc & H2).
    unfold ret in H2. simplify_eq.
    constructor; [exists d; auto | eapply IH; eassumption].
  - discriminate.
Qed.

Lemma context_prompt_inv segs st st' ctx :
  (ts <- texts_of segs ;; ss <- all_str ts ;;
   ret (context_intro ++ join separator ss)) st = (st', Ok ctx) ->
  exists ss,
    Forall2 has_text segs ss
    /\ ctx = context_intro ++ join separator ss
    /\ st' = st.
Proof.
  intros H.
  apply bind_ok_inv in H as (s1 & ts & H1 & H).
  apply bind_ok_inv in H as (s2 & ss & H2 & H).
  unfold ret in H. simplify_eq.
  exists ss. split; [eapply texts_inv; eassumption|]. split; [reflexivity|].
  apply all_str_pure in H2. apply texts_of_pure in H1. congruence.
Qed.

Lemma has_text_functional segs : forall ss ss',
  Forall2 has_text segs ss -> Forall2 has_text segs ss' -> ss = ss'.
Proof.
  induction segs as [|segment rest IH]; intros ss ss' H H'.
  - inversion H; inversion H'; reflexivity.
  - inversion H as [|? s ? ss0 (d & Hd & Ht) Hr]; subst.
    inversion H' as [|? s' ? ss0' (d' & Hd' & Ht') Hr']; subst.
    simplify_eq. f_equal. now apply IH.
Qed.

Lemma translate_segments_requests self segments cb st st' r name :
  local_model_on self = true ->
  model_name self = Some name ->
  translate_segments ollama self segments cb st = (st', Ok r) ->
  exists segs ss evs,
    heap st !! segments = Some segs
    /\ Forall2 has_text segs ss
    /\ trace st' = trace st ++ evs
    /\ engine_calls evs
       = request name (context_intro ++ join separator ss) <$> ss.
Proof.
  intros Hon Hname. unfold translate_segments. intros H.
  apply bind_ok_inv in H as (st0 & segs & H0 & H).
  unfold list_get, ret in H0. simplify_eq.
  destruct (heap st0 !! segments) as [segs|] eqn:Hsegs; simpl in H; [|discriminate].
  destruct segs as [|s0 rest]; [discriminate|].
  unfold try_except in H.
  match type of H with
  | (match ?m st0 with _ => _ end) = _ => destruct (m st0) as [st2 [r2|e]] eqn:Hm
  end; [|discriminate].
  simplify_eq.
  apply bind_ok_inv in Hm as (st1 & out & Hnew & Hm).
  unfold list_new in Hnew. simplify_eq.
  apply bind_ok_inv in Hm as (st2 & ctx & Hctx & Hm).
  rewrite Hon in Hctx.
  apply context_prompt_inv in Hctx as (ss & Hss & -> & ->).
  apply bind_ok_inv in Hm as (st3 & [] & Hloop & Hm).
  unfold ret in Hm. simplify_eq.
  apply (translate_loop_on_ok _ _ _ _ _ name _ _ _ _ Hon Hname) in Hloop
    as (ss' & evs & Hss' & Ht & He).
  assert (ss' = ss) by (eapply has_text_functional; eassumption). subst ss'.
  exists (s0 :: rest), ss, evs. auto.
Qed.

End RequestFacts.

(** X6: with the local model on, a successful translation has sent
    exactly one request for each segment, in the order of the store; every
    request carries the same context, the texts of all segments joined by
    [\n---\n] after the framing line, and ends with the text of its
    segment. *)
Theorem one_request_per_segment
    (ollama : list event -> list pystr -> result pystr)
    (self : Translator) (segments : loc) (cb : bool) (st st' : state)
    (r : loc) (name : pystr) :
  local_model_on self = true ->
  model_name self = Some name ->
  translate_segments ollama self segments cb st = (st', Ok r) ->
  exists segs ss,
    heap st !! segments = Some segs
    /\ Forall2 has_text segs ss
    /\ engine_calls (new_events st st')
       = request name (context_intro ++ join separator ss) <$> ss.
Proof.
  intros Hon Hname H.
  destruct (translate_segments_requests ollama self segments cb st st' r name
              Hon Hname H) as (segs & ss & evs & Hsegs & Hss & Ht & He).
  exists segs, ss. rewrite (new_events_app st st' evs Ht). auto.
Qed.

Lemma one_request_per_segment_witness :
  exists segs ss,
    heap (store_of [hello]) !! 0%nat = Some segs
    /\ Forall2 has_text segs ss
    /\ engine_calls
         (new_events (store_of [hello])
            (translate_segments canned_engine translator_on 0%nat true
               (store_of [hello])).1)
       = request (lit "gemma") (context_intro ++ join separator ss) <$> ss.
Proof.
  apply (one_request_per_segment canned_engine translator_on 0%nat true
           (store_of [hello]) _ 1%nat (lit "gemma")).
  - reflexivity.
  - reflexivity.
  - vm_compute. reflexivity.
Defined.

(** ** Progress: the last report *)

Section DurationFacts.
Local Open Scope Q_scope.

Lemma duration_ratio (e d : Q) : 0 < d -> 0 <= e -> 0 <= e / d.
Proof.
  intros Hd He. apply Qle_shift_div_l; [exact Hd|]. now rewrite Qmult_0_l.
Qed.

Lemma duration_ratio_le (e e' d : Q) : 0 < d -> e <= e' -> e / d <= e' / d.
Proof.
  intros Hd He. apply Qmult_le_compat_r; [exact He|].
  apply Qlt_le_weak, Qinv_lt_0_compat, Hd.
Qed.

Lemma duration_percent_range (d : Q) (s : raw_segment) :
  0 < d -> 0 <= seg_end s -> seg_end s <= d ->
  (0 <= duration_percent_of d s <= 100)%Z.
Proof.
  intros Hd H0 H1. unfold duration_percent_of, fmul, fdiv.
  assert (Hq0 : 0 <= fl (seg_end s / d)) by (apply fl_nonneg; now apply duration_ratio).
  assert (Hq1 : fl (seg_end s / d) <= 1).
  { rewrite <- fl_1. apply fl_le; [now apply duration_ratio|].
    apply Qle_shift_div_r; [exact Hd|]. now rewrite Qmult_1_l. }
  generalize dependent (fl (seg_end s / d)). intros q Hq0 Hq1.
  assert (Hlo : 0 <= fl (q * 100)) by (apply fl_nonneg; lra).
  assert (Hhi : fl (q * 100) <= fl 100) by (apply fl_le; lra).
  rewrite fl_100 in Hhi.
  split.
  - apply (Qtrunc_le 0); lra.
  - apply (Qtrunc_le _ 100); lra.
Qed.

Lemma duration_percent_le (d : Q) (s s' : raw_segment) :
  0 < d -> 0 <= seg_end s -> seg_end s <= seg_end s' ->
  (duration_percent_of d s <= duration_percent_of d s')%Z.
Proof.
  intros Hd H0 H1. unfold duration_percent_of, fmul, fdiv.
  assert (Hq0 : 0 <= fl (seg_end s / d)) by (apply fl_nonneg; now apply duration_ratio).
  assert (Hq : fl (seg_end s / d) <= fl (seg_end s' / d)).
  { apply fl_le; [now apply duration_ratio | now apply duration_ratio_le]. }
  generalize dependent (fl (seg_end s' / d)).
  generalize dependent (fl (seg_end s / d)). intros q Hq0 q' Hq.
  apply Qtrunc_le.
  - apply fl_nonneg. lra.
  - apply fl_le; lra.
Qed.

Lemma duration_percent_full (d : Q) (s : raw_segment) :
  0 < d -> seg_end s == d -> duration_percent_of d s = 100%Z.
Proof.
  intros Hd He. unfold duration_percent_of, fmul, fdiv.
  assert (E : seg_end s / d == 1).
  { rewrite He. apply Qmult_inv_r. intros Hz. rewrite Hz in Hd.
    discriminate. }
  now rewrite (fl_comp _ _ E).
Qed.

End DurationFacts.

(** Paced segments satisfy the progress contract. *)
Lemma paced_contract (d : Q) (raw : list raw_segment) :
  paced d raw -> progress_contract (duration_percent_of d <$> raw).
Proof.
  intros (Hd & Hmono & s & Hlast & Hend).
  assert (Hbound : forall i a, raw !! i = Some a ->
            (0 <= seg_end a)%Q /\ (seg_end a <= d)%Q).
  { intros i a Ha. pose proof (lookup_lt_Some _ _ _ Ha) as Hi.
    rewrite last_lookup in Hlast.
    destruct (Hmono i (pred (length raw)) a s) as [H0 H1];
      [lia | exact Ha | exact Hlast |].
    split; [exact H0|]. now rewrite <- Hend. }
  split; [|split].
  - apply Forall_lookup. intros i p Hp. rewrite list_lookup_fmap in Hp.
    destruct (raw !! i) as [a|] eqn:Ha; [|discriminate].
    simpl in Hp. injection Hp as <-.
    destruct (Hbound i a Ha). now apply duration_percent_range.
  - intros i j p q Hij Hp Hq. rewrite list_lookup_fmap in Hp, Hq.
    destruct (raw !! i) as [a|] eqn:Ha; [|discriminate].
    destruct (raw !! j) as [b|] eqn:Hb; [|discriminate].
    simpl in Hp, Hq. injection Hp as <-. injection Hq as <-.
    destruct (Hmono i j a b Hij Ha Hb). now apply duration_percent_le.
  - rewrite fmap_last, Hlast. simpl. f_equal. now apply duration_percent_full.
Qed.

Lemma count_progress_snoc (n : nat) :
  (0 < n)%nat -> exists init, count_progress n = init ++ [100].
Proof. intros Hn. apply last_Some. now apply count_progress_last. Qed.

Section ProgressFacts.

Variable ollama : list event -> list pystr -> result pystr.

(** One round of the translation loop ends with its report. *)
Lemma translate_one_last self total ctx out i segment st st' :
  translate_one ollama self total ctx out true i segment st = (st', Ok tt) ->
  exists before,
    trace st' = trace st ++ before
                ++ [EvProgress (percent (Z.of_nat i + 1) (Z.of_nat total))].
Proof.
  unfold translate_one. munfold. intros H.
  destruct segment as [d|v]; [|discriminate].
  destruct (d !! "text") as [text|]; [|discriminate].
  destruct (local_model_on self).
  - destruct (translate_with_ollama ollama self ctx text st) as [st1 [t|e]] eqn:Ho;
      [|discriminate].
    apply translate_with_ollama_ok in Ho as [Hh [cmd Htr]].
    destruct (d !! "start"); [|discriminate].
    destruct (d !! "end"); [|discriminate].
    simpl in H. simplify_eq. simpl. rewrite Htr. exists [EvRun cmd].
    now rewrite <- app_assoc.
  - destruct (d !! "start"); [|discriminate].
    destruct (d !! "end"); [|discriminate].
    simpl in H. simplify_eq. exists []. reflexivity.
Qed.

Lemma translate_loop_last self total ctx out segs : forall i st st',
  translate_loop ollama self total ctx out true i segs st = (st', Ok tt) ->
  segs <> [] ->
  exists before,
    trace st' = trace st ++ before
                ++ [EvProgress (percent (Z.of_nat (i + length segs))
                                  (Z.of_nat total))].
Proof.
  induction segs as [|segment rest IH]; intros i st st' H Hne; [congruence|].
  simpl in H. apply bind_ok_inv in H as (st1 & [] & H1 & H2).
  apply translate_one_last in H1 as [b1 Ht1].
  destruct rest as [|s2 rest'].
  - simpl in H2. unfold ret in H2. simplify_eq. exists b1. rewrite Ht1. simpl.
    replace (Z.of_nat (i + 1)) with (Z.of_nat i + 1) by lia. reflexivity.
  - apply IH in H2 as [b2 Ht2]; [|discriminate].
    eexists (b1 ++ [_] ++ b2). rewrite Ht2, Ht1, <- !app_assoc.
    replace (i + length (segment :: s2 :: rest'))%nat
      with (S i + length (s2 :: rest'))%nat by (simpl; lia).
    reflexivity.
Qed.

(** A successful translation with a callback ends with the report of
    100. *)
Lemma translate_segments_last self segments st st' r segs :
  translate_segments ollama self segments true st = (st', Ok r) ->
  heap st !! segments = Some segs ->
  exists before, new_events st st' = before ++ [EvProgress 100].
Proof.
  unfold translate_segments. intros H Hsegs.
  apply bind_ok_inv in H as (st0 & segs0 & H0 & H).
  unfold list_get, ret in H0. simplify_eq. rewrite Hsegs in H. simpl in H.
  destruct segs as [|s0 rest]; [discriminate|].
  unfold try_except in H.
  match type of H with
  | (match ?m st0 with _ => _ end) = _ => destruct (m st0) as [st2 [r2|e]] eqn:Hm
  end; [|discriminate].
  simplify_eq.
  apply bind_ok_inv in Hm as (st1 & out & Hnew & Hm).
  unfold list_new in Hnew. simplify_eq.
  apply bind_ok_inv in Hm as (st2 & ctx & Hctx & Hm).
  assert (Ht2 : trace st2 = trace st0).
  { destruct (local_model_on self).
    - apply bind_ok_inv in Hctx as (sa & ts & Ha & Hctx).
      apply bind_ok_inv in Hctx as (sb & ss & Hb & Hctx).
      unfold ret in Hctx. simplify_eq.
      apply texts_of_pure in Ha. apply all_str_pure in Hb. now subst.
    - unfold ret in Hctx. now simplify_eq. }
  apply bind_ok_inv in Hm as (st3 & [] & Hloop & Hm).
  unfold ret in Hm. simplify_eq.
  apply translate_loop_last in Hloop as [before Ht]; [|discriminate].
  exists before. apply new_events_app. rewrite Ht, Ht2. f_equal. f_equal.
  cbn [Nat.add]. rewrite percent_full; [reflexivity|]. simpl. lia.
Qed.

End ProgressFacts.

(** A counted run reports after each segment and ends with the report of
    100. *)
Lemma counted_run_events (evs : list event) (n : nat) :
  counted_run evs n -> (0 < n)%nat ->
  progress_values evs = count_progress n
  /\ exists before, evs = before ++ [EvProgress 100].
Proof.
  intros Hrun Hn.
  destruct Hrun as [pe wi wl wt self audio st st' segs H
                   | ollama self segments st st' r segs H Hsegs
                   | fr fo fw os self st st' path H].
  - apply transcribe_with_whisper_ok in H
      as (raw & fp16 & _ & _ & _ & -> & _ & Ht).
    rewrite length_fmap in *.
    rewrite (new_events_app st st' _ Ht). split.
    + rewrite progress_values_app. simpl. apply progress_values_reports.
    + destruct (count_progress_snoc _ Hn) as [init ->].
      rewrite fmap_app. simpl. eexists (_ :: _ :: _). reflexivity.
  - pose proof (translate_segments_last _ _ _ _ _ _ _ H Hsegs) as Hlast.
    apply translate_segments_ok in H
      as (segs' & news & evs & Hsegs' & _ & _ & _ & _ & Ht & Hp & _).
    assert (segs' = segs) by congruence. subst segs'.
    rewrite (new_events_app st st' _ Ht) in *. now split.
  - apply generate_srt_ok in H as (_ & _ & evs & Ht & _ & Hp & Hl).
    rewrite (new_events_app st st' _ Ht). split; [exact Hp|].
    destruct Hl as [before ->]; [reflexivity | |].
    + destruct (segments self); [simpl in Hn; lia | discriminate].
    + exists (EvOpen path :: before). reflexivity.
Qed.

(** A run of variant B reports, after the two engine events, one value
    for each segment. *)
Lemma timed_run_events (evs : list event) (d : Q) (raw : list raw_segment) :
  timed_run evs d raw ->
  exists engine,
    evs = engine ++ (EvProgress <$> (duration_percent_of d <$> raw))
    /\ progress_values engine = [].
Proof.
  intros Hrun.
  destruct Hrun as [pe fl_ ft self audio st st' segs yield dur H Hft].
  apply transcribe_with_faster_whisper_ok in H
    as (raw & dur' & _ & Hft' & _ & _ & Ht).
  rewrite Hft in Hft'. injection Hft' as -> ->. simpl.
  rewrite (new_events_app st st' _ Ht). eexists [_; _]. split; reflexivity.
Qed.

Lemma whisper_three_run :
  transcribe_with_whisper any_path true whisper_loads whisper_three
    cpu_whisper (lit "talk.wav") true init_state
  = ((transcribe_with_whisper any_path true whisper_loads whisper_three
        cpu_whisper (lit "talk.wav") true init_state).1,
     Ok three_segments).
Proof. vm_compute. reflexivity. Qed.

Lemma faster_three_run :
  transcribe_with_faster_whisper any_path faster_loads faster_three
    cpu_faster (lit "talk.wav") true init_state
  = ((transcribe_with_faster_whisper any_path faster_loads faster_three
        cpu_faster (lit "talk.wav") true init_state).1,
     Ok three_segments).
Proof. vm_compute. reflexivity. Qed.

Lemma three_paced : paced 6 [hello_raw; second_raw; third_raw].
Proof.
  split; [reflexivity|]. split.
  - intros i j a b Hij Ha Hb.
    destruct i as [|[|[|i]]]; destruct j as [|[|[|j]]];
      simpl in Ha, Hb; simplify_eq; try lia;
      split; unfold Qle; simpl; lia.
  - exists third_raw. split; reflexivity.
Qed.

(** ** Progress: the contract *)

(** C3 as stated fails for the faster-whisper variant: for one segment
    that ends at 2.5 s of a 10 s audio the only value delivered is 25,
    and for one that ends at 12 s it is 120. *)
Lemma faster_progress_stops_short :
  (exists st' segs,
     transcribe_with_faster_whisper any_path faster_loads faster_hello
       cpu_faster (lit "talk.wav") true init_state = (st', Ok segs)
     /\ segs <> []
     /\ progress_values (new_events init_state st') = [25])
  /\ (exists st' segs,
        transcribe_with_faster_whisper any_path faster_loads faster_overshoot
          cpu_faster (lit "talk.wav") true init_state = (st', Ok segs)
        /\ segs <> []
        /\ progress_values (new_events init_state st') = [120])
  /\ ~ faster_progress_contract any_path faster_loads faster_hello
         cpu_faster (lit "talk.wav") init_state.
Proof.
  split; [|split].
  - eexists _, _. split; [vm_compute; reflexivity|].
    split; [discriminate | vm_compute; reflexivity].
  - eexists _, _. split; [vm_compute; reflexivity|].
    split; [discriminate | vm_compute; reflexivity].
  - intros H.
    destruct (H (transcribe_with_faster_whisper any_path faster_loads faster_hello
                   cpu_faster (lit "talk.wav") true init_state).1
                [hello]) as (_ & _ & Hlast).
    + vm_compute. reflexivity.
    + discriminate.
    + vm_compute in Hlast. discriminate.
Qed.

(** C3, as the code has it.  For the stages that count their segments
    (variant A transcription, translation, subtitle writing), a
    successful run with a callback over a non-empty store delivers one
    value per segment; the values lie in [0,100], are non-decreasing and
    end with exactly 100; the report of 100 is the last event of the run,
    so every engine call, write and other report precedes it; and with at
    most 2^53 segments no earlier report is 100.  The faster-whisper
    variant delivers [int(segment.end / total_duration * 100)] for each
    segment in order, as computed; when the segments pace the audio these
    values satisfy the contract and the report of 100 is the last event
    of the run. *)
Theorem progress_by_stage (evs : list event) :
  (forall n, counted_run evs n -> (0 < n)%nat ->
     length (progress_values evs) = n
     /\ progress_contract (progress_values evs)
     /\ (exists before, evs = before ++ [EvProgress 100])
     /\ (Z.of_nat n <= 2 ^ 53 -> hundred_only_last (progress_values evs)))
  /\ (forall total_duration raw, timed_run evs total_duration raw ->
        progress_values evs = duration_percent_of total_duration <$> raw
        /\ (paced total_duration raw ->
            progress_contract (progress_values evs)
            /\ exists before, evs = before ++ [EvProgress 100])).
Proof.
  split.
  - intros n Hrun Hn.
    destruct (counted_run_events evs n Hrun Hn) as [E Hend]. rewrite E.
    split; [apply count_progress_length|].
    split; [now apply count_progress_contract|].
    split; [exact Hend | apply count_progress_hundred].
  - intros d raw Hrun.
    destruct (timed_run_events evs d raw Hrun) as (engine & -> & He).
    assert (E : progress_values
                  (engine ++ (EvProgress <$> (duration_percent_of d <$> raw)))
                = duration_percent_of d <$> raw).
    { now rewrite progress_values_app, He, progress_values_reports. }
    rewrite E. split; [reflexivity|].
    intros Hp. split; [now apply paced_contract|].
    destruct Hp as (Hd & _ & s & Hlast & Hs).
    apply last_Some in Hlast as [init ->].
    rewrite !fmap_app. simpl.
    rewrite (duration_percent_full d s Hd Hs).
    exists (engine ++ (EvProgress <$> (duration_percent_of d <$> init))).
    now rewrite <- app_assoc.
Qed.

Lemma progress_by_stage_witness :
  (let evs :=
     new_events init_state
       (transcribe_with_whisper any_path true whisper_loads whisper_three
          cpu_whisper (lit "talk.wav") true init_state).1 in
   progress_values evs = [33; 66; 100]
   /\ length (progress_values evs) = 3%nat
   /\ progress_contract (progress_values evs)
   /\ (exists before, evs = before ++ [EvProgress 100])
   /\ hundred_only_last (progress_values evs))
  /\ (let evs :=
        new_events init_state
          (transcribe_with_faster_whisper any_path faster_loads faster_three
             cpu_faster (lit "talk.wav") true init_state).1 in
      progress_values evs = [41; 66; 100]
      /\ progress_contract (progress_values evs)
      /\ exists before, evs = before ++ [EvProgress 100]).
Proof.
  cbv zeta. split.
  - destruct (proj1 (progress_by_stage _) _
                (whisper_run _ _ _ _ _ _ _ _ _ whisper_three_run)
                (Nat.lt_0_succ 2))
      as (Hlen & Hc & Hend & Hh).
    split; [vm_compute; reflexivity|].
    split; [exact Hlen|]. split; [exact Hc|]. split; [exact Hend|].
    apply Hh. simpl. lia.
  - destruct (proj2 (progress_by_stage _) _ _
                (faster_run any_path faster_loads faster_three _ _ _ _ _ _ _
                   faster_three_run eq_refl))
      as (Hv & Hp).
    destruct (Hp three_paced) as (Hc & Hend).
    split; [vm_compute; reflexivity|]. split; [exact Hc | exact Hend].
Defined.
